(** * pyswan.oceanwaves: spectral ocean-wave containers and their reductions

    A shallow embedding of [src/pyswan/oceanwaves.py], at two levels of
    arithmetic.

    Exact level.  A finite double is a real number of [R] and arithmetic on
    finite values is exact: rounding, overflow and signed zeros are not
    modelled.  NumPy's [nan], with which fresh containers are filled, is a
    value of its own ([NaN]); an operation that IEEE arithmetic answers with
    a non-finite value (division by zero, square root of a negative number)
    also yields [NaN], so infinities are not tracked as array cells.  The
    only infinity the code mentions, the default [fmax = np.inf], is kept in
    the type of frequency bounds.  This level carries the control flow of
    the program: constructors, units tags, shapes, errors, the peak
    look-ups (which only compare cells) and the clamping of [np.interp].
    An identity or an inequality between two differently computed numbers
    that is proved at this level is a statement about the formulas
    evaluated in exact arithmetic, and it is worded so; the doubles of the
    program may miss it in the last digit.

    Double-precision level (module [IEEE]).  The reductions [Hm0], [Tm01],
    [Tm02] and the two generators once more, on IEEE 754 binary64 values
    with NumPy's order of summation.  What is stated of the doubles the
    program returns is stated here, and so is every example on which
    rounding decides.  The functions of the C library ([exp], [cos],
    [pow], the Gamma function) are parameters of this level.

    Effects.  The reductions print diagnostics and may raise; both are kept in
    a small writer/error monad [Py]. *)

From Stdlib Require Import String Ascii DecimalString.
From Stdlib Require Import PrimFloat SpecFloat FloatOps.
From Stdlib Require Import Reals Lra Lia List Bool Arith ZArith.
Import ListNotations.

Open Scope string_scope.
Open Scope list_scope.
Open Scope R_scope.

(** ** Python-level values and effects *)

Inductive exn : Type :=
| TypeError
| ValueError
| IndexError
| AttributeError
| UnboundLocalError
| OverflowError
| ZeroDivisionError
| Exception (msg : string).

Inductive outcome (A : Type) : Type :=
| Ret (a : A)
| Raise (e : exn).
Arguments Ret {A} a.
Arguments Raise {A} e.

(** [Py A]: the lines printed on stdout, and how the call ended. *)
Definition Py (A : Type) : Type := (list string * outcome A)%type.

Definition ret {A} (a : A) : Py A := ([], Ret a).
Definition raise {A} (e : exn) : Py A := ([], Raise e).
Definition print (line : string) : Py unit := ([line], Ret tt).

Definition bind {A B} (m : Py A) (k : A -> Py B) : Py B :=
  match m with
  | (out, Ret a) => let (out', r) := k a in (out ++ out', r)
  | (out, Raise e) => (out, Raise e)
  end.

Declare Scope py_scope.
Delimit Scope py_scope with py.
Notation "x <- m ;; k" := (bind m (fun x => k))
  (at level 61, m at next level, right associativity) : py_scope.
Notation "m ;;; k" := (bind m (fun _ => k))
  (at level 61, right associativity) : py_scope.

Fixpoint mapM {A B} (k : A -> Py B) (l : list A) : Py (list B) :=
  match l with
  | [] => ret []
  | a :: l' => (b <- k a ;; bs <- mapM k l' ;; ret (b :: bs))%py
  end.

(** [print(a, b, c)] separates its arguments by one blank. *)
Definition print_args (args : list string) : Py unit :=
  print (String.concat " " args).

Definition dquote : string := String "034"%char EmptyString.

(** [str(n)] for a non-negative int, and [str] of a tuple of ints. *)
Definition str_nat (n : nat) : string := NilEmpty.string_of_uint (Nat.to_uint n).

Definition str_tuple (t : list nat) : string :=
  match t with
  | [n] => "(" ++ str_nat n ++ ",)"
  | _ => "(" ++ String.concat ", " (map str_nat t) ++ ")"
  end%string.

(** ** Floating-point cells *)

Inductive float : Type :=
| Fin (r : R)
| NaN.

Definition lift2 (op : R -> R -> R) (a b : float) : float :=
  match a, b with
  | Fin x, Fin y => Fin (op x y)
  | _, _ => NaN
  end.

Definition fadd := lift2 Rplus.
Definition fsub := lift2 Rminus.
Definition fmul := lift2 Rmult.

Definition fdiv (a b : float) : float :=
  match a, b with
  | Fin x, Fin y => if Req_dec_T y 0 then NaN else Fin (x / y)
  | _, _ => NaN
  end.

Definition fabs (a : float) : float :=
  match a with Fin x => Fin (Rabs x) | NaN => NaN end.

Definition fsqrt (a : float) : float :=
  match a with
  | Fin x => if Rlt_dec x 0 then NaN else Fin (sqrt x)
  | NaN => NaN
  end.

(** [np.maximum] on two cells: a nan wins. *)
Definition fmaximum := lift2 Rmax.


(** A frequency bound passed to [Hm0]: a number or [np.inf]. *)
Inductive bound : Type :=
| Freq (r : R)
| PlusInf.

Definition ble (a b : bound) : Prop :=
  match a, b with
  | Freq x, Freq y => x <= y
  | _, PlusInf => True
  | PlusInf, Freq _ => False
  end.

(** [fmin==0 and fmax==np.inf] *)
Definition is_full_band (fmin fmax : bound) : bool :=
  match fmin, fmax with
  | Freq r, PlusInf => if Req_dec_T r 0 then true else false
  | _, _ => false
  end.

(** ** NumPy / SciPy primitives on one axis *)

(** [np.trapz(y, x)] on finite data:
    [d = diff(x); sum(d * (y[1:] + y[:-1]) / 2.0)]. *)
Fixpoint trapzR (y x : list R) : R :=
  match y, x with
  | y0 :: y', x0 :: x' =>
      match y', x' with
      | y1 :: _, x1 :: _ => (x1 - x0) * (y1 + y0) / 2 + trapzR y' x'
      | _, _ => 0
      end
  | _, _ => 0
  end.

(** The same on cells that may be nan.  Both run over [y] and [x] in step:
    the containers keep the integrated axis as long as [x], and arrays of
    unequal length (which NumPy broadcasts or refuses) are outside the
    statements below. *)
Fixpoint trapz (y x : list float) : float :=
  match y, x with
  | y0 :: y', x0 :: x' =>
      match y', x' with
      | y1 :: _, x1 :: _ =>
          fadd (fdiv (fmul (fsub x1 x0) (fadd y1 y0)) (Fin 2)) (trapz y' x')
      | _, _ => Fin 0
      end
  | _, _ => Fin 0
  end.

(** [scipy.integrate.cumtrapz(y, x, initial=0)]: the running sums of the
    trapezoid areas, after the initial 0. *)
Fixpoint cumtrapz_from (acc : float) (y x : list float) : list float :=
  match y, x with
  | y0 :: y', x0 :: x' =>
      match y', x' with
      | y1 :: _, x1 :: _ =>
          let acc' := fadd acc (fdiv (fmul (fsub x1 x0) (fadd y1 y0)) (Fin 2)) in
          acc' :: cumtrapz_from acc' y' x'
      | _, _ => []
      end
  | _, _ => []
  end.

Definition cumtrapz (y x : list float) : list float :=
  Fin 0 :: cumtrapz_from (Fin 0) y x.

Fixpoint cumtrapzR_from (acc : R) (y x : list R) : list R :=
  match y, x with
  | y0 :: y', x0 :: x' =>
      match y', x' with
      | y1 :: _, x1 :: _ =>
          let acc' := acc + (x1 - x0) * (y1 + y0) / 2 in
          acc' :: cumtrapzR_from acc' y' x'
      | _, _ => []
      end
  | _, _ => []
  end.

Definition cumtrapzR (y x : list R) : list R := 0 :: cumtrapzR_from 0 y x.

(** [np.interp(x, xp, fp)] for increasing sample points [xp] (the only case
    NumPy documents): [fp[0]] left of the samples, [fp[-1]] right of them,
    the chord between the two neighbouring samples otherwise.  An empty [xp]
    and arrays of different lengths are ValueErrors. *)
Definition blt_float (x : bound) (v : float) : bool :=
  match x, v with
  | Freq r, Fin y => if Rlt_dec r y then true else false
  | _, _ => false
  end.

Definition bgt_float (x : bound) (v : float) : bool :=
  match x, v with
  | Freq r, Fin y => if Rlt_dec y r then true else false
  | PlusInf, Fin _ => true
  | _, NaN => false
  end.

Fixpoint interp_scan (r : R) (xp fp : list float) : float :=
  match xp, fp with
  | Fin x0 :: xp', y0 :: fp' =>
      match xp', fp' with
      | Fin x1 :: _, y1 :: _ =>
          if Rlt_dec r x1
          then if Req_dec_T r x0 then y0
               else fadd (fmul (fdiv (fsub y1 y0) (Fin (x1 - x0))) (Fin (r - x0))) y0
          else interp_scan r xp' fp'
      | [], [] => y0
      | _, _ => NaN
      end
  | _, _ => NaN
  end.

Definition interp (x : bound) (xp fp : list float) : Py float :=
  match xp with
  | [] => raise ValueError
  | x0 :: _ =>
      if negb (length xp =? length fp)%nat then raise ValueError
      else if blt_float x x0 then ret (hd NaN fp)
      else if bgt_float x (last xp NaN) then ret (last fp NaN)
      else match x with
           | Freq r => ret (interp_scan r xp fp)
           | PlusInf => ret NaN
           end
  end.

Fixpoint interp_scanR (r : R) (xp fp : list R) : R :=
  match xp, fp with
  | x0 :: xp', y0 :: fp' =>
      match xp', fp' with
      | x1 :: _, y1 :: _ =>
          if Rlt_dec r x1
          then if Req_dec_T r x0 then y0
               else (y1 - y0) / (x1 - x0) * (r - x0) + y0
          else interp_scanR r xp' fp'
      | _, _ => y0
      end
  | _, _ => 0
  end.

Definition interpR (x : bound) (xp fp : list R) : R :=
  match x with
  | PlusInf => last fp 0
  | Freq r =>
      if Rlt_dec r (hd 0 xp) then hd 0 fp
      else if Rlt_dec (last xp 0) r then last fp 0
      else interp_scanR r xp fp
  end.

(** [np.max] of one row (nan wins; an empty row has no maximum) and
    [np.argmax] of a flattened array: the first index of the maximum, the
    first nan if there is one. *)
Definition amax (row : list float) : Py float :=
  match row with
  | [] => raise ValueError
  | v :: row' => ret (fold_left fmaximum row' v)
  end.

Fixpoint argmax_from (mp : float) (mi i : nat) (l : list float) : nat :=
  match l with
  | [] => mi
  | v :: l' =>
      match mp, v with
      | NaN, _ => mi
      | Fin _, NaN => i
      | Fin m, Fin x =>
          if Rle_dec x m then argmax_from mp mi (S i) l'
          else argmax_from v i (S i) l'
      end
  end.

Definition argmax (l : list float) : Py nat :=
  match l with
  | [] => raise ValueError
  | v :: l' => ret (argmax_from v 0 1 l')
  end.

(** [a[i]] on a one-dimensional array. *)
Definition getitem (a : list float) (i : nat) : Py float :=
  match nth_error a i with
  | Some v => ret v
  | None => raise IndexError
  end.

(** ** N-dimensional arrays: a shape and the cells in row-major order *)

Record ndarray : Type := mk_ndarray { shape : list nat; data : list float }.

Definition size_of (s : list nat) : nat := fold_right Nat.mul 1%nat s.

Definition full (s : list nat) (v : float) : ndarray :=
  mk_ndarray s (repeat v (size_of s)).

Fixpoint chunks {A} (k n : nat) (l : list A) : list (list A) :=
  match k with
  | O => []
  | S k' => firstn n l :: chunks k' n (skipn n l)
  end.

(** The one-dimensional slices along the last axis, [a[..., :]]. *)
Definition rows (a : ndarray) : list (list float) :=
  chunks (size_of (removelast (shape a))) (last (shape a) 0%nat) (data a).

(** A reduction along [axis=-1]. *)
Definition along_last (g : list float -> float) (a : ndarray) : ndarray :=
  mk_ndarray (removelast (shape a)) (map g (rows a)).

Definition along_lastM (g : list float -> Py float) (a : ndarray) : Py ndarray :=
  (cells <- mapM g (rows a) ;; ret (mk_ndarray (removelast (shape a)) cells))%py.

(** An elementwise operation, and one that broadcasts a one-dimensional
    array along the last axis. *)
Definition map_nd (g : float -> float) (a : ndarray) : ndarray :=
  mk_ndarray (shape a) (map g (data a)).

Fixpoint map2 {A B C} (g : A -> B -> C) (l : list A) (l' : list B) : list C :=
  match l, l' with
  | a :: l, b :: l' => g a b :: map2 g l l'
  | _, _ => []
  end.

Definition mul_last (a : ndarray) (v : list float) : ndarray :=
  mk_ndarray (shape a) (concat (map (fun row => map2 fmul row v) (rows a))).

(** [np.max(a, axis=-2)]: within every block [a[..., :, :]] the maximum of
    each column. *)
Definition blocks (a : ndarray) : list (list (list float)) :=
  let n := last (shape a) 0%nat in
  let m := last (removelast (shape a)) 0%nat in
  map (chunks m n)
      (chunks (size_of (removelast (removelast (shape a)))) (m * n) (data a)).

Definition col_max (block : list (list float)) : Py (list float) :=
  match block with
  | [] => raise ValueError
  | r :: rs => ret (fold_left (map2 fmaximum) rs r)
  end.

Definition amax_penultimate (a : ndarray) : Py ndarray :=
  (cols <- mapM col_max (blocks a) ;;
   ret (mk_ndarray (removelast (removelast (shape a)) ++ [last (shape a) 0%nat])
                   (concat cols)))%py.

(** ** The analytic generators, in exact arithmetic *)

(** The formulas of [jonswap] and [directional_spreading] on real numbers,
    for arguments at which the powers, the divisions and [math.gamma] of
    the program return a finite number.  The generators as the program
    runs them, on doubles and with the errors Python raises, are
    [IEEE.jonswap] and [IEEE.directional_spreading] below. *)

(** [sigma(f, fpeak, sa, sb)]: [sa] everywhere, [sb] where [f > fpeak]. *)
Definition sigma (f : list R) (fpeak sa sb : R) : list R :=
  map (fun fi => if Rlt_dec fpeak fi then sb else sa) f.

(** The two published fits of the Pierson-Moskowitz scale; any other
    [method] leaves [alpha] unbound. *)
Definition alpha (method : string) (gamma : R) : option R :=
  if String.eqb method "Yamaguchi"
  then Some (1 / (0.06533 * Rpower gamma 0.8015 + 0.13467) / 16)
  else if String.eqb method "Goda"
  then Some (1 / (0.23 + 0.03 * gamma - 0.185 * powerRZ (1.9 + gamma) (-1)) / 16)
  else None.

(** [pm] and the peak-enhanced [E], before normalisation. *)
Definition pm (al Hm0 Tp : R) (f : list R) : list R :=
  map (fun fi => al * Hm0 ^ 2 * powerRZ Tp (-4) * powerRZ fi (-5)
                 * exp (-1.25 * powerRZ (Tp * fi) (-4))) f.

Definition peak_enhancement (Tp gamma sa sb : R) (f : list R) : list R :=
  map2 (fun fi s => Rpower gamma (exp (-0.5 * (Tp * fi - 1) ^ 2 / s ^ 2)))
       f (sigma f (1 / Tp) sa sb).

Definition jonswap (f : list R) (Hm0 Tp : R) (g gamma : R) (method : string)
    (normalize : bool) (sa sb : R) : outcome (list R) :=
  match alpha method gamma with
  | None => Raise UnboundLocalError
  | Some al =>
      let E := map2 Rmult (pm al Hm0 Tp f) (peak_enhancement Tp gamma sa sb f) in
      if normalize then
        let corr := Hm0 ^ 2 / (16 * trapzR E f) in
        Ret (map (fun e => e * corr) E)
      else Ret E
  end.

Section DirectionalSpreading.

(** [math.gamma] and the text [print] shows for a float are library
    functions of Python; the kernel is stated for any such pair. *)
Variable Gamma : R -> R.
Variable str_float : R -> string.

Definition A1 (ms : R) : R :=
  Rpower 2 ms * Gamma (ms / 2 + 1) ^ 2 / (PI * Gamma (ms + 1)).

(** The loop body: [cdir[i]] for one direction, already in radians. *)
Definition cdir_at (pdir ms : R) (d : R) : R :=
  let acos := cos (d - pdir) in
  if Rlt_dec 0 acos then A1 ms * Rmax (Rpower acos ms) 1e-10 else d * 0.

Definition directional_spreading (dirs : list R) (pdir ms : R) (units : string)
  : Py (list R) :=
  let u := substring 0 3 units in
  if String.eqb u "deg" then
    let dirs := map (fun d => d * PI / 180) dirs in
    let pdir := pdir * PI / 180 in
    let cdir := map (cdir_at pdir ms) dirs in
    let cdir := map (fun c => c * PI / 180) cdir in
    let intz := trapzR cdir dirs * 180 / PI in
    ((if Rlt_dec (Rabs (intz - 1)) 1e-4 then ret tt
      else print_args ["integral not 1 for ms="; str_float ms; ":"; str_float intz]) ;;;
     ret cdir)%py
  else if String.eqb u "rad" then
    let dirs := map (fun d => d + 0) dirs in
    let cdir := map (cdir_at pdir ms) dirs in
    let intz := trapzR cdir dirs * 180 / PI in
    ((if Rlt_dec (Rabs (intz - 1)) 1e-4 then ret tt
      else print_args ["integral not 1 for ms="; str_float ms; ":"; str_float intz]) ;;;
     ret cdir)%py
  else raise TypeError.

End DirectionalSpreading.

(** ** Containers *)

(** Python objects held by dynamically typed attributes. *)
Inductive pyobj : Type :=
| PyNone
| PyFloat (v : float)
| PyArr (a : ndarray)
| PyList (l : list float).

Definition shape_of (o : pyobj) : option (list nat) :=
  match o with
  | PyNone => None
  | PyFloat _ => Some []
  | PyArr a => Some (shape a)
  | PyList l => Some [length l]
  end.

(** The keyword arguments the constructors look at; a key that is absent is
    [None].  (Other keys only become extra attributes.) *)
Record kwargs : Type := mk_kwargs {
  kw_buoy : option (list string);
  kw_sensor : option (list string);
  kw_source : option string;
  kw_t : option (list float);
  kw_x : option (list float);
  kw_y : option (list float);
  kw_lon : option (list float);
  kw_lat : option (list float);
  kw_epsg : option (list string);
  kw_text : option (list string);
  kw_version : option (list string);
  kw_energy_units : option string;
  kw_direction_units : option string;
  kw_spreading_units : option string;
  kw_energy : option ndarray;
  kw_direction : option ndarray;
  kw_spreading : option ndarray
}.

Definition no_kwargs : kwargs :=
  mk_kwargs None None None None None None None None None None None
            None None None None None None.

Definition dflt {A} (d : A) (o : option A) : A :=
  match o with Some v => v | None => d end.

Definition shape_eq_dec : forall s s' : list nat, {s = s'} + {s <> s'} :=
  list_eq_dec Nat.eq_dec.

(** [np.sqrt(m0)] for the object [m0]; NumPy has no square root of [None]. *)
Definition np_sqrt (o : pyobj) : Py pyobj :=
  match o with
  | PyNone => raise TypeError
  | PyFloat v => ret (PyFloat (fsqrt v))
  | PyArr a => ret (PyArr (map_nd fsqrt a))
  | PyList l => ret (PyArr (mk_ndarray [length l] (map fsqrt l)))
  end.

(** [c * o] for a float [c] and what [np.sqrt] returned. *)
Definition scale (c : R) (o : pyobj) : Py pyobj :=
  match o with
  | PyNone => raise TypeError
  | PyFloat v => ret (PyFloat (fmul (Fin c) v))
  | PyArr a => ret (PyArr (map_nd (fmul (Fin c)) a))
  | PyList _ => raise TypeError
  end.

(** The frequency-range branch of [Hm0]: the cumulative integral of every
    row of [spec], interpolated at [fmax] and at [fmin]. *)
Definition cumtrapz_last (a : ndarray) (x : list float) : ndarray :=
  mk_ndarray (shape a) (concat (map (fun row => cumtrapz row x) (rows a))).

Definition band_m0 (spec : ndarray) (f : list float) (fmin fmax : bound)
  : Py ndarray :=
  let Efcum := cumtrapz_last spec f in
  (cells <- mapM (fun row => hi <- interp fmax f row ;;
                             lo <- interp fmin f row ;;
                             ret (fsub hi lo))
                 (rows Efcum) ;;
   ret (mk_ndarray (firstn 2 (shape Efcum)) cells))%py.

Definition np_trapz (a : ndarray) (x : list float) : ndarray :=
  along_last (fun row => trapz row x) a.

Definition div_nd (a b : ndarray) : ndarray :=
  mk_ndarray (shape a) (map2 fdiv (data a) (data b)).

Definition square (v : float) : float := fmul v v.

Module Spec2.

Record self : Type := mk_self {
  f : list float;
  direction : list float;
  buoy : list string;
  sensor : list string;
  source : string;
  t : list float;
  x : list float;
  y : list float;
  lon : list float;
  lat : list float;
  epsg : list string;
  text : list string;
  version : list string;
  energy_units : string;
  direction_units : string;
  energy : ndarray
}.

Definition default_f : list float := [NaN].
Definition default_direction : list float := [NaN].

(** [__init__]: the defaults, overridden by the keyword arguments, then the
    shape check of [energy] against [(nt, nxy, nf, nd)]. *)
Definition init (f direction : list float) (kw : kwargs) : Py self :=
  let t := dflt [NaN] (kw_t kw) in
  let x := dflt [NaN] (kw_x kw) in
  let lon := dflt [NaN] (kw_lon kw) in
  let nt := length t in
  let nxy := Nat.max (length x) (length lon) in
  let nf := length f in
  let nd := length direction in
  let blank := full [nt; nxy; nf; nd] NaN in
  let energy := dflt blank (kw_energy kw) in
  if shape_eq_dec (shape energy) [nt; nxy; nf; nd] then
    ret (mk_self f direction
           (dflt [] (kw_buoy kw)) (dflt [] (kw_sensor kw)) (dflt EmptyString (kw_source kw))
           t x (dflt [NaN] (kw_y kw)) lon (dflt [NaN] (kw_lat kw))
           (dflt [] (kw_epsg kw)) (dflt [] (kw_text kw)) (dflt [] (kw_version kw))
           (dflt "m2/Hz/deg" (kw_energy_units kw))
           (dflt "degrees_north" (kw_direction_units kw))
           energy)
  else
    raise (Exception ("dimensions E " ++ str_tuple (shape energy)
                      ++ " do not match t,x,f,direction "
                      ++ str_tuple [nt; nxy; nf; nd])%string).

Definition units_ok (s : self) : bool :=
  String.eqb (substring 0 9 (energy_units s)) "m2/Hz/deg".

Definition unknown_units (s : self) : Py unit :=
  print_args [("unknown units:" ++ dquote)%string; energy_units s; dquote].

(** [np.abs(np.trapz(self.energy, self.direction))] *)
Definition spec1 (s : self) : ndarray :=
  map_nd fabs (np_trapz (energy s) (direction s)).

Definition Hm0 (s : self) (fmin fmax : bound) : Py pyobj :=
  (m0 <- (if units_ok s then
            if is_full_band fmin fmax
            then ret (PyArr (np_trapz (spec1 s) (f s)))
            else (a <- band_m0 (spec1 s) (f s) fmin fmax ;; ret (PyArr a))
          else (unknown_units s ;;; ret PyNone)) ;;
   r <- np_sqrt m0 ;;
   scale 4 r)%py.

Definition Tm01 (s : self) : Py pyobj :=
  if units_ok s then
    let m0 := np_trapz (spec1 s) (f s) in
    let m1 := np_trapz (mul_last (spec1 s) (f s)) (f s) in
    ret (PyArr (div_nd m0 m1))
  else (unknown_units s ;;; ret PyNone)%py.

(** [self.f**2] asks for an array [f]: on a Python list, such as the
    default [[np.nan]], it is a TypeError.  The embedding has one type for
    both and takes [f] as an array here. *)
Definition Tm02 (s : self) : Py pyobj :=
  if units_ok s then
    let m0 := np_trapz (spec1 s) (f s) in
    let m2 := np_trapz (mul_last (spec1 s) (map square (f s))) (f s) in
    ret (PyArr (map_nd fsqrt (div_nd m0 m2)))
  else (unknown_units s ;;; ret PyNone)%py.

Definition Tp (s : self) : Py pyobj :=
  if units_ok s then
    (peaks <- along_lastM amax (energy s) ;;
     i <- argmax (data peaks) ;;
     fp <- getitem (f s) i ;;
     ret (PyFloat (fdiv (Fin 1) fp)))%py
  else (unknown_units s ;;; ret PyNone)%py.

Definition pdir (s : self) : Py pyobj :=
  if units_ok s then
    (peaks <- amax_penultimate (energy s) ;;
     i <- argmax (data peaks) ;;
     d <- getitem (direction s) i ;;
     ret (PyFloat d))%py
  else (unknown_units s ;;; ret PyNone)%py.

(** [__repr__]: the text depends on the number of axes of [energy]; with
    fewer than two or more than four, [txt] is never assigned. *)
Definition repr (s : self) : Py string :=
  match shape (energy s) with
  | [nf; nd] =>
      ret ("<Spectrum2D " ++ " shape:[nt: 0" ++ ",nx: 0 " ++ ",nf:" ++ str_nat nf
           ++ ",nd:" ++ str_nat nd
           ++ "]: " ++ dquote ++ source s ++ dquote ++ ">")%string
  | [nx; nf; nd] =>
      ret ("<Spectrum2D " ++ " shape:[nt: 0" ++ ",nx:" ++ str_nat nx
           ++ ",nf:" ++ str_nat nf ++ ",nd:" ++ str_nat nd
           ++ "]: " ++ dquote ++ source s ++ dquote ++ ">")%string
  | [nt; nx; nf; nd] =>
      ret ("<Spectrum2D " ++ " shape:[nt:" ++ str_nat nt ++ ",nx:" ++ str_nat nx
           ++ ",nf:" ++ str_nat nf ++ ",nd:" ++ str_nat nd
           ++ "]: " ++ dquote ++ source s ++ dquote ++ ">")%string
  | _ => raise UnboundLocalError
  end.

End Spec2.

Module Spec1.

Record self : Type := mk_self {
  f : list float;
  buoy : list string;
  sensor : list string;
  source : string;
  t : list float;
  x : list float;
  y : list float;
  lon : list float;
  lat : list float;
  epsg : list string;
  text : list string;
  version : list string;
  energy_units : string;
  direction_units : string;
  spreading_units : string;
  energy : ndarray;
  direction : ndarray;
  spreading : ndarray
}.

Definition default_f : list float := [NaN].

Definition mismatch (actual expected : list nat) : exn :=
  Exception ("dimensions E " ++ str_tuple actual
             ++ " do not match t,x,f " ++ str_tuple expected)%string.

(** [__init__]: the defaults, overridden by the keyword arguments, then the
    shape checks of [energy], [direction] and [spreading], in this order,
    against [(nt, nxy, nf)]. *)
Definition init (f : list float) (kw : kwargs) : Py self :=
  let t := dflt [NaN] (kw_t kw) in
  let x := dflt [NaN] (kw_x kw) in
  let lon := dflt [NaN] (kw_lon kw) in
  let nt := length t in
  let nxy := Nat.max (length x) (length lon) in
  let nf := length f in
  let blank := full [nt; nxy; nf] NaN in
  let energy := dflt blank (kw_energy kw) in
  if shape_eq_dec (shape energy) [nt; nxy; nf] then
    let direction := dflt blank (kw_direction kw) in
    if shape_eq_dec (shape direction) [nt; nxy; nf] then
      let spreading := dflt blank (kw_spreading kw) in
      if shape_eq_dec (shape spreading) [nt; nxy; nf] then
        ret (mk_self f
               (dflt [] (kw_buoy kw)) (dflt [] (kw_sensor kw)) (dflt EmptyString (kw_source kw))
               t x (dflt [NaN] (kw_y kw)) lon (dflt [NaN] (kw_lat kw))
               (dflt [] (kw_epsg kw)) (dflt [] (kw_text kw)) (dflt [] (kw_version kw))
               (dflt "m2/Hz/deg" (kw_energy_units kw))
               (dflt "degrees_north" (kw_direction_units kw))
               (dflt "degr" (kw_spreading_units kw))
               energy direction spreading)
      else raise (mismatch (shape spreading) [nt; nxy; nf])
    else raise (mismatch (shape direction) [nt; nxy; nf])
  else raise (mismatch (shape energy) [nt; nxy; nf]).

(** [Hm0] compares the whole tag, the other reductions its first nine
    characters. *)
Definition units_ok (s : self) : bool :=
  String.eqb (substring 0 9 (energy_units s)) "m2/Hz".

Definition unknown_units (s : self) : Py unit :=
  print_args [("unknown units:" ++ dquote)%string; energy_units s; dquote].

Definition Hm0 (s : self) (fmin fmax : bound) : Py pyobj :=
  (m0 <- (if String.eqb (energy_units s) "m2/Hz" then
            if is_full_band fmin fmax
            then ret (PyArr (np_trapz (energy s) (f s)))
            else (a <- band_m0 (energy s) (f s) fmin fmax ;; ret (PyArr a))
          else (print_args ["unknown units"; energy_units s] ;;; ret PyNone)) ;;
   r <- np_sqrt m0 ;;
   scale 4 r)%py.

Definition Tm01 (s : self) : Py pyobj :=
  if units_ok s then
    let m0 := np_trapz (energy s) (f s) in
    let m1 := np_trapz (mul_last (energy s) (f s)) (f s) in
    ret (PyArr (div_nd m0 m1))
  else (unknown_units s ;;; ret PyNone)%py.

(** As for rank 2, [self.f**2] takes [f] as an array. *)
Definition Tm02 (s : self) : Py pyobj :=
  if units_ok s then
    let m0 := np_trapz (energy s) (f s) in
    let m2 := np_trapz (mul_last (energy s) (map square (f s))) (f s) in
    ret (PyArr (map_nd fsqrt (div_nd m0 m2)))
  else (unknown_units s ;;; ret PyNone)%py.

Definition Tp (s : self) : Py pyobj :=
  if units_ok s then
    (i <- argmax (data (energy s)) ;;
     fp <- getitem (f s) i ;;
     ret (PyFloat (fdiv (Fin 1) fp)))%py
  else (unknown_units s ;;; ret PyNone)%py.

(** [__repr__]: the text depends on the number of axes of [energy]; with
    none or more than three, [txt] is never assigned. *)
Definition repr (s : self) : Py string :=
  match shape (energy s) with
  | [nf] =>
      ret ("<Spectrum1D " ++ " shape:[nt: 0" ++ ",nx: 0" ++ ",nf:" ++ str_nat nf
           ++ "]: " ++ dquote ++ source s ++ dquote ++ ">")%string
  | [nx; nf] =>
      ret ("<Spectrum1D " ++ " shape:[nt: 0" ++ ",nx:" ++ str_nat nx
           ++ ",nf:" ++ str_nat nf
           ++ "]: " ++ dquote ++ source s ++ dquote ++ ">")%string
  | [nt; nx; nf] =>
      ret ("<Spectrum1D " ++ " shape:[nt:" ++ str_nat nt ++ ",nx:" ++ str_nat nx
           ++ ",nf:" ++ str_nat nf
           ++ "]: " ++ dquote ++ source s ++ dquote ++ ">")%string
  | _ => raise UnboundLocalError
  end.

End Spec1.

(** What [from_Spec] may be handed: a rank-1 or a rank-2 container. *)
Inductive Spec : Type :=
| Rank1 (s : Spec1.self)
| Rank2 (s : Spec2.self).

Module Spec0.

Record self : Type := mk_self {
  buoy : list string;
  sensor : list string;
  source : string;
  x : list float;
  y : list float;
  lon : list float;
  lat : list float;
  epsg : list string;
  text : list string;
  version : list string;
  t : pyobj;
  Hs : pyobj;
  Tp : pyobj;
  Tm01 : pyobj;
  Tm02 : pyobj;
  pdir : pyobj;
  ms : pyobj
}.

(** [np.asarray([[]])] *)
Definition empty2d : pyobj := PyArr (mk_ndarray [1%nat; 0%nat] []).

Definition init (kw : kwargs) : self :=
  mk_self (dflt [] (kw_buoy kw)) (dflt [] (kw_sensor kw)) (dflt EmptyString (kw_source kw))
          (dflt [] (kw_x kw)) (dflt [] (kw_y kw)) (dflt [] (kw_lon kw))
          (dflt [] (kw_lat kw))
          (dflt [] (kw_epsg kw)) (dflt [] (kw_text kw)) (dflt [] (kw_version kw))
          empty2d empty2d empty2d empty2d empty2d empty2d empty2d.

(** The attribute lookups and method calls [from_Spec] makes on its
    argument; a rank-1 container has no [pdir]. *)
Definition call_Hm0 (sp : Spec) : Py pyobj :=
  match sp with
  | Rank1 s => Spec1.Hm0 s (Freq 0) PlusInf
  | Rank2 s => Spec2.Hm0 s (Freq 0) PlusInf
  end.

Definition call_Tp (sp : Spec) : Py pyobj :=
  match sp with Rank1 s => Spec1.Tp s | Rank2 s => Spec2.Tp s end.

Definition call_Tm01 (sp : Spec) : Py pyobj :=
  match sp with Rank1 s => Spec1.Tm01 s | Rank2 s => Spec2.Tm01 s end.

Definition call_Tm02 (sp : Spec) : Py pyobj :=
  match sp with Rank1 s => Spec1.Tm02 s | Rank2 s => Spec2.Tm02 s end.

Definition call_pdir (sp : Spec) : Py pyobj :=
  match sp with Rank1 _ => raise AttributeError | Rank2 s => Spec2.pdir s end.

(** The metadata is copied, then the five reductions are called in the
    order of the source.  When one of them raises, the call ends there
    (the attributes already assigned are not tracked). *)
Definition from_Spec (self0 : self) (sp : Spec) : Py self :=
  let meta {A} (g1 : Spec1.self -> A) (g2 : Spec2.self -> A) : A :=
    match sp with Rank1 s => g1 s | Rank2 s => g2 s end in
  (hs <- call_Hm0 sp ;;
   tp <- call_Tp sp ;;
   tm01 <- call_Tm01 sp ;;
   tm02 <- call_Tm02 sp ;;
   pd <- call_pdir sp ;;
   ret (mk_self (meta Spec1.buoy Spec2.buoy) (meta Spec1.sensor Spec2.sensor)
                (meta Spec1.source Spec2.source)
                (meta Spec1.x Spec2.x) (meta Spec1.y Spec2.y)
                (meta Spec1.lon Spec2.lon) (meta Spec1.lat Spec2.lat)
                (meta Spec1.epsg Spec2.epsg) (meta Spec1.text Spec2.text)
                (version self0)
                (PyList (meta Spec1.t Spec2.t))
                hs tp tm01 tm02 pd (ms self0)))%py.

End Spec0.

(** ** Predicates used by the statements *)

(** A frequency axis: positive and strictly increasing. *)
Fixpoint increasing (l : list R) : Prop :=
  match l with
  | a :: l' => match l' with b :: _ => a < b /\ increasing l' | [] => True end
  | [] => True
  end.

Definition frequency_axis (f : list R) : Prop :=
  Forall (fun fi => 0 < fi) f /\ increasing f.

(** The array [a] has shape [s] and holds the finite cells [cells]. *)
Definition holds (a : ndarray) (s : list nat) (cells : list R) : Prop :=
  shape a = s /\ data a = map Fin cells /\ length cells = size_of s.


(** The shape the axes of a container imply. *)
Definition implied_shape (axes : list (list float)) (kw : kwargs) : list nat :=
  [length (dflt [NaN] (kw_t kw));
   Nat.max (length (dflt [NaN] (kw_x kw))) (length (dflt [NaN] (kw_lon kw)))]
  ++ map (@length float) axes.

(** [Spec1(f=[1., 2., 3., 4.], energy=np.zeros((2, 3, 4)))] *)
Definition kwargs_energy_234 : kwargs :=
  mk_kwargs None None None None None None None None None None None
            None None None (Some (full [2%nat; 3%nat; 4%nat] (Fin 0))) None None.

(** [Spec1()], if the constructor returns. *)
Definition Spec1_default : option Spec1.self :=
  match Spec1.init Spec1.default_f no_kwargs with
  | (_, Ret s) => Some s
  | (_, Raise _) => None
  end.

(** [Spec2(f=[.1, .2], direction=[0., 90.], energy_units='m2/Hz/rad')]
    with unit energy everywhere. *)
Definition Spec2_rad : Spec2.self :=
  Spec2.mk_self [Fin 0.1; Fin 0.2] [Fin 0; Fin 90] [] [] EmptyString [NaN] [NaN] [NaN] [NaN] [NaN]
                [] [] [] "m2/Hz/rad" "degrees_north"
                (full [1%nat; 1%nat; 2%nat; 2%nat] (Fin 1)).

(** A rank-2 container with two times, one location, two frequencies and two
    directions:
    [energy[0,0] = [[5, 1], [1, 1]]], [energy[1,0] = [[1, 1], [2, 1]]]. *)
Definition Spec2_two_times : Spec2.self :=
  Spec2.mk_self [Fin 0.1; Fin 0.2] [Fin 0; Fin 90] [] [] EmptyString [Fin 0; Fin 1] [NaN] [NaN] [NaN] [NaN]
                [] [] [] "m2/Hz/deg" "degrees_north"
                (mk_ndarray [2%nat; 1%nat; 2%nat; 2%nat]
                   [Fin 5; Fin 1; Fin 1; Fin 1; Fin 1; Fin 1; Fin 2; Fin 1]).

Fixpoint nondecreasing (l : list R) : Prop :=
  match l with
  | a :: l' => match l' with b :: _ => a <= b /\ nondecreasing l' | [] => True end
  | [] => True
  end.

(** The finite rows of an array of shape [s ++ [n]]. *)
Definition rowsR (s : list nat) (n : nat) (cells : list R) : list (list R) :=
  chunks (size_of s) n cells.

(** The cumulative integral of one spectrum, read at a bound. *)
Definition cum_at (fr : list R) (r : list R) (b : bound) : R :=
  interpR b fr (cumtrapzR r fr).

(** The energy of one spectrum between two bounds. *)
Definition band_energy (fr : list R) (fmin fmax : bound) (r : list R) : R :=
  cum_at fr r fmax - cum_at fr r fmin.

(** What both [Hm0] methods compute once the units tag is accepted, from the
    array [spec] of omnidirectional spectra. *)
Definition Hm0_body (spec : ndarray) (f : list float) (fmin fmax : bound) : Py pyobj :=
  (m0 <- (if is_full_band fmin fmax
          then ret (PyArr (np_trapz spec f))
          else (a <- band_m0 spec f fmin fmax ;; ret (PyArr a))) ;;
   r <- np_sqrt m0 ;;
   scale 4 r)%py.

(** A rank-1 container with one spectrum on [f = [1, 2]]:
    [energy[0,0] = [1, 3]]. *)
Definition Spec1_two_samples : Spec1.self :=
  Spec1.mk_self [Fin 1; Fin 2] [] [] EmptyString [NaN] [NaN] [NaN] [NaN] [NaN]
                [] [] [] "m2/Hz" "degrees_north" "degr"
                (mk_ndarray [1%nat; 1%nat; 2%nat] [Fin 1; Fin 3])
                (full [1%nat; 1%nat; 2%nat] NaN) (full [1%nat; 1%nat; 2%nat] NaN).

(** Resolve the comparisons of concrete reals a computation runs into. *)
Ltac decide_reals :=
  repeat match goal with
    | |- context [Rmax ?a ?b] =>
        first [ rewrite (Rmax_left a b) by lra | rewrite (Rmax_right a b) by lra ]
    | |- context [Rle_dec ?a ?b] => destruct (Rle_dec a b); [try lra | try lra]
    | |- context [Rlt_dec ?a ?b] => destruct (Rlt_dec a b); [try lra | try lra]
    | |- context [Req_dec_T ?a ?b] => destruct (Req_dec_T a b); [try lra | try lra]
    end.

(** ** Further definitions *)

(** The omnidirectional spectra [abs(trapz(energy, direction))] of a rank-2
    container with finite cells, one value per (t, x, f). *)
Definition omni (dirs : list R) (nt nxy nf nd : nat) (cells : list R) : list R :=
  map Rabs (map (fun r => trapzR r dirs) (rowsR [nt; nxy; nf] nd cells)).

(** The largest value of a row of finite cells (0 for no cell). *)
Definition row_max (row : list R) : R :=
  match row with
  | [] => 0
  | v :: row' => fold_left Rmax row' v
  end.

(** The blocks [energy[t, x, :, :]] of a rank-2 container with finite
    cells, each as its [nf] rows of [nd] cells, and the largest value of
    every column of one block. *)
Definition blocksR (nt nxy nf nd : nat) (cells : list R) : list (list (list R)) :=
  map (chunks nf nd) (chunks (size_of [nt; nxy]) (nf * nd) cells).

Definition col_maxR (block : list (list R)) : list R :=
  match block with
  | [] => []
  | r :: rs => fold_left (map2 Rmax) rs r
  end.

(** ** Double precision *)

(** The reductions and the spreading kernel once more, now with the
    arithmetic of the program: IEEE 754 binary64 with round to nearest
    even, signed zeros, infinities and nan ([spec_float] at precision 53,
    exponent bound 1024).  A decimal literal stands for the nearest double,
    as it does in Python.  The arrays of a container are nested lists
    [energy[it][ix][if]] (rank 1) and [energy[it][ix][if][id]] (rank 2). *)

Set Warnings "-inexact-float".

Module IEEE.

Definition F : Type := spec_float.

Definition lit (x : PrimFloat.float) : F := Prim2SF x.

Definition add : F -> F -> F := SFadd prec emax.
Definition sub : F -> F -> F := SFsub prec emax.
Definition mul : F -> F -> F := SFmul prec emax.
Definition div : F -> F -> F := SFdiv prec emax.
Definition sqrt : F -> F := SFsqrt prec emax.
Definition abs : F -> F := SFabs.
Definition opp : F -> F := SFopp.
Definition ltb : F -> F -> bool := SFltb.
Definition leb : F -> F -> bool := SFleb.
Definition eqb : F -> F -> bool := SFeqb.

Definition nan : F := S754_nan.
Definition inf : F := S754_infinity false.
Definition zero : F := S754_zero false.
Definition one : F := Eval vm_compute in lit 1.
Definition two : F := Eval vm_compute in lit 2.
Definition four : F := Eval vm_compute in lit 4.
Definition c180 : F := Eval vm_compute in lit 180.
Definition c200 : F := Eval vm_compute in lit 200.
Definition c1e_10 : F := Eval vm_compute in lit 1e-10.
Definition c1e_4 : F := Eval vm_compute in lit 1e-4.
Definition np_pi : F := Eval vm_compute in lit 3.141592653589793.

Definition is_nan (x : F) : bool :=
  match x with S754_nan => true | _ => false end.

Definition is_zero (x : F) : bool :=
  match x with S754_zero _ => true | _ => false end.

Definition is_finite (x : F) : bool :=
  match x with S754_zero _ | S754_finite _ _ _ => true | _ => false end.

(** [x == floor(x)] for a finite [x]. *)
Definition is_integer (x : F) : bool :=
  match x with
  | S754_zero _ => true
  | S754_finite _ m e => (0 <=? e)%Z || (Z.pos m mod 2 ^ (- e) =? 0)%Z
  | _ => false
  end.

(** [np.maximum(a, b)]: [a] if [a >= b] or [a] is nan, else [b]. *)
Definition maximum (a b : F) : F :=
  if leb b a || is_nan a then a else b.

(** *** Sums *)

(** [np.add.reduce] along a contiguous axis: the additive identity plus
    NumPy's pairwise sum, which adds fewer than 8 terms from left to right,
    up to 128 terms in 8 interleaved partial sums, and splits a longer
    array in two.  ([fuel] bounds the depth of the splitting.) *)
Definition sum_seq (acc : F) (l : list F) : F := fold_left add l acc.

Fixpoint add_blocks (k : nat) (r l : list F) : list F * list F :=
  match k with
  | O => (r, l)
  | S k' => add_blocks k' (map2 add r (firstn 8 l)) (skipn 8 l)
  end.

Definition sum_unrolled (l : list F) : F :=
  let '(r, rest) := add_blocks (length l / 8 - 1) (firstn 8 l) (skipn 8 l) in
  match r with
  | [r0; r1; r2; r3; r4; r5; r6; r7] =>
      sum_seq (add (add (add r0 r1) (add r2 r3)) (add (add r4 r5) (add r6 r7))) rest
  | _ => zero
  end.

Fixpoint pairwise_sum (fuel : nat) (l : list F) : F :=
  let n := length l in
  if (n <? 8)%nat then sum_seq zero l
  else if (n <=? 128)%nat then sum_unrolled l
  else match fuel with
       | O => zero
       | S fuel' =>
           let n2 := (n / 2 - (n / 2) mod 8)%nat in
           add (pairwise_sum fuel' (firstn n2 l)) (pairwise_sum fuel' (skipn n2 l))
       end.

Definition np_sum (l : list F) : F := add zero (pairwise_sum (length l) l).

(** [np.cumsum]: the running sums from left to right. *)
Fixpoint cumsum_from (acc : F) (l : list F) : list F :=
  match l with
  | [] => []
  | a :: l' => let acc' := add acc a in acc' :: cumsum_from acc' l'
  end.

Definition np_cumsum (l : list F) : list F :=
  match l with
  | [] => []
  | a :: l' => a :: cumsum_from a l'
  end.

(** *** Operations along one axis *)

(** [x[1:] - x[:-1]] and [y[1:] + y[:-1]]. *)
Definition diff (x : list F) : list F := map2 sub (tl x) x.
Definition pair_sums (y : list F) : list F := map2 add (tl y) y.

(** An elementwise operation on two one-dimensional operands: equal
    lengths, or one operand of length 1, which is repeated; anything else
    is NumPy's broadcasting ValueError. *)
Definition broadcast2 (op : F -> F -> F) (a b : list F) : Py (list F) :=
  if (length a =? length b)%nat then ret (map2 op a b)
  else match a, b with
       | [u], _ => ret (map (op u) b)
       | _, [v] => ret (map (fun x => op x v) a)
       | _, _ => raise ValueError
       end.

(** The trapezoid areas [d * (y[1:] + y[:-1]) / 2.0] with [d = diff(x)]. *)
Definition areas (y x : list F) : Py (list F) :=
  (p <- broadcast2 mul (diff x) (pair_sums y) ;;
   ret (map (fun t => div t two) p))%py.

(** [np.trapz(y, x)] along the last axis. *)
Definition trapz (y x : list F) : Py F :=
  (a <- areas y x ;; ret (np_sum a))%py.

(** [scipy.integrate.cumtrapz(y, x, initial=0)] along the last axis; SciPy
    insists on [len(x) == len(y)]. *)
Definition cumtrapz (y x : list F) : Py (list F) :=
  if (length y =? 0)%nat || negb (length (diff x) =? length y - 1)%nat
  then raise ValueError
  else ret (zero :: np_cumsum (map (fun t => div t two)
                                   (map2 mul (diff x) (pair_sums y)))).

(** [np.interp(x, xp, fp)] for a scalar [x], as NumPy's loop computes it:
    the end values outside the samples, the table entry at a sample, and
    [slope*(x - xp[j]) + fp[j]], rounded after the product and after the
    sum, inside the interval that the search finds (the search assumes an
    increasing [xp]). *)
Fixpoint interp_scan (x : F) (xp fp : list F) : F :=
  match xp, fp with
  | x0 :: xp', y0 :: fp' =>
      match xp', fp' with
      | x1 :: _, y1 :: _ =>
          if leb x1 x then interp_scan x xp' fp'
          else if eqb x0 x then y0
          else
            let slope := div (sub y1 y0) (sub x1 x0) in
            let r := add (mul slope (sub x x0)) y0 in
            if is_nan r then
              let r' := add (mul slope (sub x x1)) y1 in
              if is_nan r' && eqb y0 y1 then y0 else r'
            else r
      | _, _ => y0
      end
  | _, _ => nan
  end.

Definition interp (x : F) (xp fp : list F) : Py F :=
  match xp with
  | [] => raise ValueError
  | x0 :: xp' =>
      if negb (length xp =? length fp)%nat then raise ValueError
      else match xp' with
           | [] => ret (if ltb x x0 then hd nan fp
                        else if ltb x0 x then last fp nan
                        else hd nan fp)
           | _ :: _ =>
               if is_nan x then ret x
               else if ltb (last xp nan) x then ret (last fp nan)
               else if ltb x x0 then ret (hd nan fp)
               else ret (interp_scan x xp fp)
           end
  end.

(** *** The reductions *)

(** What the reductions compute from one spectrum [spec] over the
    frequencies [f].  [Hm0]: [4*np.sqrt(m0)] with [m0] from [np.trapz] for
    the default bounds and from the interpolated cumulative integral
    otherwise; [Tm01 = m0/m1]; [Tm02 = np.sqrt(m0/m2)]. *)
Definition Hm0_of (spec f : list F) (fmin fmax : F) : Py F :=
  (m0 <- (if eqb fmin zero && eqb fmax inf then trapz spec f
          else (Efcum <- cumtrapz spec f ;;
                hi <- interp fmax f Efcum ;;
                lo <- interp fmin f Efcum ;;
                ret (sub hi lo))) ;;
   ret (mul four (sqrt m0)))%py.

Definition Tm01_of (spec f : list F) : Py F :=
  (m0 <- trapz spec f ;;
   ef <- broadcast2 mul spec f ;;
   m1 <- trapz ef f ;;
   ret (div m0 m1))%py.

Definition Tm02_of (spec f : list F) : Py F :=
  (m0 <- trapz spec f ;;
   ef <- broadcast2 mul spec (map (fun v => mul v v) f) ;;
   m2 <- trapz ef f ;;
   ret (sqrt (div m0 m2)))%py.

(** A reduction applied to every cell [[it][ix]] of a container.  (NumPy
    reduces the whole array at once; with at least one cell the outcome is
    the same.) *)
Definition per_cell {A} (g : A -> Py F) (cells : list (list A))
  : Py (list (list F)) :=
  mapM (mapM g) cells.

Module Spec1.

(** [f_list] tells whether the attribute [f] is a Python list (as the
    default [[np.nan]]) rather than an array; [f] holds its entries either
    way. *)
Record self : Type := mk_self {
  f : list F;
  f_list : bool;
  energy : list (list (list F));
  energy_units : string
}.

Definition unknown_units (s : self) : Py unit :=
  print_args [("unknown units:" ++ dquote)%string; energy_units s; dquote].

Definition Hm0 (s : self) (fmin fmax : F) : Py (list (list F)) :=
  if String.eqb (energy_units s) "m2/Hz"
  then per_cell (fun e => Hm0_of e (f s) fmin fmax) (energy s)
  else (print_args ["unknown units"; energy_units s] ;;; raise TypeError)%py.

Definition Tm01 (s : self) : Py (option (list (list F))) :=
  if String.eqb (substring 0 9 (energy_units s)) "m2/Hz"
  then (r <- per_cell (fun e => Tm01_of e (f s)) (energy s) ;; ret (Some r))%py
  else (unknown_units s ;;; ret None)%py.

(** [m0] is computed first; then [self.f**2] is a TypeError on a list. *)
Definition Tm02 (s : self) : Py (option (list (list F))) :=
  if String.eqb (substring 0 9 (energy_units s)) "m2/Hz"
  then (per_cell (fun e => trapz e (f s)) (energy s) ;;;
        if f_list s then raise TypeError
        else (r <- per_cell (fun e => Tm02_of e (f s)) (energy s) ;;
              ret (Some r)))%py
  else (unknown_units s ;;; ret None)%py.

End Spec1.

Module Spec2.

Record self : Type := mk_self {
  f : list F;
  f_list : bool;
  direction : list F;
  energy : list (list (list (list F)));
  energy_units : string
}.

Definition units_ok (s : self) : bool :=
  String.eqb (substring 0 9 (energy_units s)) "m2/Hz/deg".

Definition unknown_units (s : self) : Py unit :=
  print_args [("unknown units:" ++ dquote)%string; energy_units s; dquote].

(** [np.abs(np.trapz(energy, direction))] on the rows of one cell. *)
Definition spec1 (direction : list F) (cell : list (list F)) : Py (list F) :=
  mapM (fun row => (t <- trapz row direction ;; ret (abs t))%py) cell.

Definition Hm0 (s : self) (fmin fmax : F) : Py (list (list F)) :=
  if units_ok s
  then per_cell (fun c => (sp <- spec1 (direction s) c ;;
                           Hm0_of sp (f s) fmin fmax)%py) (energy s)
  else (unknown_units s ;;; raise TypeError)%py.

Definition Tm01 (s : self) : Py (option (list (list F))) :=
  if units_ok s
  then (r <- per_cell (fun c => (sp <- spec1 (direction s) c ;;
                                 Tm01_of sp (f s))%py) (energy s) ;;
        ret (Some r))%py
  else (unknown_units s ;;; ret None)%py.

Definition Tm02 (s : self) : Py (option (list (list F))) :=
  if units_ok s
  then (per_cell (fun c => (sp <- spec1 (direction s) c ;;
                            trapz sp (f s))%py) (energy s) ;;;
        if f_list s then raise TypeError
        else (r <- per_cell (fun c => (sp <- spec1 (direction s) c ;;
                                       Tm02_of sp (f s))%py) (energy s) ;;
              ret (Some r)))%py
  else (unknown_units s ;;; ret None)%py.


End Spec2.

(** *** The generators *)

(** [v*np.pi/180] *)
Definition to_rad (v : F) : F := div (mul v np_pi) c180.

Section Libm.

(** Library functions the generators call: [np.cos], [np.exp] and the
    power of a NumPy float64 (they return a double, possibly inf or nan),
    the power of a Python float (which raises OverflowError or
    ZeroDivisionError instead), the value of the Gamma function that
    [math.gamma] computes, and the text [print] shows for a float.  The
    generators are stated for any such functions. *)
Variable np_cos : F -> F.
Variable np_exp : F -> F.
Variable np_power : F -> F -> F.
Variable float_pow : F -> F -> outcome F.
Variable tgamma : F -> F.
Variable str_float : F -> string.

(** [a / b] on Python floats. *)
Definition float_div (a b : F) : Py F :=
  if is_zero b then raise ZeroDivisionError else ret (div a b).

(** [sigma(f, fpeak, sa, sb)]: [np.ones(f.size)*sa], with [sb] where
    [f > fpeak]. *)
Definition sigma (f : list F) (fpeak sa sb : F) : list F :=
  map (fun fi => if ltb fpeak fi then sb else mul one sa) f.

(** The scale of the Pierson-Moskowitz spectrum; no other [method] binds
    [alpha]. *)
Definition alpha (method : string) (gamma : F) : Py F :=
  if String.eqb method "Yamaguchi" then
    (t <- ([], float_pow gamma (lit 0.8015)) ;;
     a <- float_div one (add (mul (lit 0.06533) t) (lit 0.13467)) ;;
     ret (div a (lit 16)))%py
  else if String.eqb method "Goda" then
    (t <- ([], float_pow (add (lit 1.9) gamma) (opp one)) ;;
     a <- float_div one (sub (add (lit 0.23) (mul (lit 0.03) gamma))
                             (mul (lit 0.185) t)) ;;
     ret (div a (lit 16)))%py
  else raise UnboundLocalError.

(** [jonswap(f, Hm0, Tp, g, gamma, method, normalize, sa, sb)] for an array
    [f] and Python floats: [pm], the peak-enhanced [E], and its rescaling
    by [corr]. *)
Definition jonswap (f : list F) (Hm0 Tp : F) (g gamma : F) (method : string)
    (normalize : bool) (sa sb : F) : Py (list F) :=
  (al <- alpha method gamma ;;
   h2 <- ([], float_pow Hm0 two) ;;
   t4 <- ([], float_pow Tp (opp four)) ;;
   let c := mul (mul al h2) t4 in
   let pm := map (fun fi =>
                    mul (mul c (np_power fi (lit (-5))))
                        (np_exp (mul (lit (-1.25)) (np_power (mul Tp fi) (opp four))))) f in
   fpeak <- float_div one Tp ;;
   let shape := map2 (fun fi s =>
                        let x := sub (mul Tp fi) one in
                        np_power gamma
                          (np_exp (div (mul (lit (-0.5)) (mul x x)) (mul s s))))
                     f (sigma f fpeak sa sb) in
   let E := map2 mul pm shape in
   if normalize then
     (h2' <- ([], float_pow Hm0 two) ;;
      t <- trapz E f ;;
      let corr := div h2' (mul (lit 16) t) in
      ret (map (fun e => mul e corr) E))
   else ret E)%py.

(** [math.gamma(x)]: ValueError at zero, at the negative integers and at
    -inf; OverflowError above 200 and whenever the value is infinite. *)
Definition math_gamma (x : F) : Py F :=
  match x with
  | S754_nan => ret x
  | S754_infinity false => ret x
  | S754_infinity true => raise ValueError
  | S754_zero _ => raise ValueError
  | S754_finite s _ _ =>
      if s && is_integer x then raise ValueError
      else if negb s && ltb c200 x then raise OverflowError
      else match tgamma x with
           | S754_infinity _ => raise OverflowError
           | r => ret r
           end
  end.

(** [(2.**ms) * (gamma(ms/2+1))**2 / (np.pi * gamma(ms+1))] *)
Definition A1 (ms : F) : Py F :=
  (p <- ([], float_pow two ms) ;;
   g1 <- math_gamma (add (div ms two) one) ;;
   q <- ([], float_pow g1 two) ;;
   g2 <- math_gamma (add ms one) ;;
   float_div (mul p q) (mul np_pi g2))%py.

(** The loop body: [cdir[i]] for one direction, already in radians;
    [a1] is the value of [A1]. *)
Definition cdir_at (a1 pdir ms d : F) : F :=
  let acos := np_cos (sub d pdir) in
  if ltb zero acos then mul a1 (maximum (np_power acos ms) c1e_10)
  else mul d zero.

(** The check for ill-sampling. *)
Definition check_integral (cdir dirs : list F) (ms : F) : Py unit :=
  (t <- trapz cdir dirs ;;
   let intz := div (mul t c180) np_pi in
   if ltb (abs (sub intz one)) c1e_4 then ret tt
   else print_args ["integral not 1 for ms="; str_float ms; ":"; str_float intz])%py.

(** [directional_spreading(dirs, pdir, ms, units)] for a one-dimensional
    sequence [dirs] and Python floats [pdir], [ms]. *)
Definition directional_spreading (dirs : list F) (pdir ms : F) (units : string)
  : Py (list F) :=
  let u := substring 0 3 units in
  if String.eqb u "deg" then
    let dirs := map to_rad dirs in
    let pdir := to_rad pdir in
    (a1 <- A1 ms ;;
     let cdir := map (cdir_at a1 pdir ms) dirs in
     let cdir := map to_rad cdir in
     check_integral cdir dirs ms ;;;
     ret cdir)%py
  else if String.eqb u "rad" then
    let dirs := map (fun d => add d zero) dirs in
    (a1 <- A1 ms ;;
     let cdir := map (cdir_at a1 pdir ms) dirs in
     check_integral cdir dirs ms ;;;
     ret cdir)%py
  else raise TypeError.

End Libm.

End IEEE.

(** [negz u v]: [u] is the negative of [v], or both are zeros (of any
    sign). *)
Definition negz (u v : IEEE.F) : Prop :=
  u = IEEE.opp v \/ (IEEE.is_zero u = true /\ IEEE.is_zero v = true).

(** ** Worked inputs in doubles *)

Definition lits (l : list PrimFloat.float) : list IEEE.F := map IEEE.lit l.





(** The library functions at the arguments the kernel passes them for
    [directional_spreading([0., 180.], 0., 2.)]: [cos(0) = 1],
    [cos(pi) = -1], [x**2 = x*x], [gamma(2) = 1], [gamma(3) = 2]. *)
Definition cos_0_pi (x : IEEE.F) : IEEE.F :=
  if IEEE.is_zero x then IEEE.one else IEEE.opp IEEE.one.
Definition pow_2 (x y : IEEE.F) : IEEE.F := IEEE.mul x x.
Definition float_pow_2 (x y : IEEE.F) : outcome IEEE.F := Ret (IEEE.mul x x).
Definition gamma_2_3 (x : IEEE.F) : IEEE.F := IEEE.sub x IEEE.one.
Definition str_any (x : IEEE.F) : string := "?".

(** [2.**400] *)
Definition float_pow_400 (x y : IEEE.F) : outcome IEEE.F :=
  Ret (IEEE.lit 2.5822498780869086e120).

(** The library functions at the arguments
    [jonswap(np.array([1., 2.]), 1., 1.)] passes them (the correctly
    rounded values, which the C library returns there). *)
Definition float_pow_jonswap (x y : IEEE.F) : outcome IEEE.F :=
  if IEEE.eqb x IEEE.one then Ret IEEE.one              (* 1.**2, 1.**-4 *)
  else Ret (IEEE.lit 2.603687887991966).                  (* 3.3**0.8015 *)

Definition np_power_jonswap (x y : IEEE.F) : IEEE.F :=
  if IEEE.eqb x IEEE.one then IEEE.one                                  (* 1.**y *)
  else if IEEE.eqb x IEEE.two then
    (if IEEE.eqb y (IEEE.lit (-5)) then IEEE.lit 0.03125                (* 2.**-5 *)
     else IEEE.lit 0.0625)                                              (* 2.**-4 *)
  else if IEEE.eqb y IEEE.one then x                                    (* 3.3**1. *)
  else IEEE.one.                                                        (* 3.3**1.55e-27 *)

Definition np_exp_jonswap (x : IEEE.F) : IEEE.F :=
  if IEEE.is_zero x then IEEE.one                                       (* exp(-0.) *)
  else if IEEE.eqb x (IEEE.lit (-1.25)) then IEEE.lit 0.2865047968601901
  else if IEEE.eqb x (IEEE.lit (-0.078125)) then IEEE.lit 0.9248488132162048
  else IEEE.lit 1.5548863390649953e-27.                                 (* exp(-61.7283950617284) *)


(** [Spec2()]: every axis is the list [[np.nan]], the energy is one nan,
    and the tag is the one the rank-2 reductions accept. *)
Definition Spec2_blank : IEEE.Spec2.self :=
  IEEE.Spec2.mk_self [IEEE.nan] true [IEEE.nan] [[[[IEEE.nan]]]] "m2/Hz/deg".

(** * Properties *)

(** ** Arithmetic on cells *)

Lemma fdiv_Fin (a b : R) : b <> 0 -> fdiv (Fin a) (Fin b) = Fin (a / b).
Proof.
  intros Hb. unfold fdiv. destruct (Req_dec_T b 0); [contradiction | reflexivity].
Qed.

Lemma fdiv_2 (a : R) : fdiv (Fin a) (Fin 2) = Fin (a / 2).
Proof. apply fdiv_Fin. lra. Qed.


(** ** The trapezoidal rule on finite data *)

Lemma trapzR_cons2 (y0 y1 x0 x1 : R) (y x : list R) :
  trapzR (y0 :: y1 :: y) (x0 :: x1 :: x)
  = (x1 - x0) * (y1 + y0) / 2 + trapzR (y1 :: y) (x1 :: x).
Proof. reflexivity. Qed.

Lemma trapz_cons2 (y0 y1 x0 x1 : float) (y x : list float) :
  trapz (y0 :: y1 :: y) (x0 :: x1 :: x)
  = fadd (fdiv (fmul (fsub x1 x0) (fadd y1 y0)) (Fin 2)) (trapz (y1 :: y) (x1 :: x)).
Proof. reflexivity. Qed.

Lemma trapz_Fin (y x : list R) :
  trapz (map Fin y) (map Fin x) = Fin (trapzR y x).
Proof.
  revert x. induction y as [|y0 y IH]; intros [|x0 x]; try reflexivity.
  destruct y as [|y1 y]; destruct x as [|x1 x]; try reflexivity.
  specialize (IH (x1 :: x)).
  cbn [map] in *. rewrite trapz_cons2, trapzR_cons2, IH.
  cbn [fsub fadd fmul lift2]. rewrite fdiv_2. reflexivity.
Qed.



(** ** JONSWAP *)

Lemma map2_length {A B C} (g : A -> B -> C) (l : list A) (l' : list B) :
  length l = length l' -> length (map2 g l l') = length l.
Proof.
  revert l'. induction l as [|a l IH]; intros [|b l'] H; simpl in *; try lia.
  rewrite IH; lia.
Qed.









(** ** Construction *)

(** C4. A supplied [energy] (for rank 1 also [direction] or [spreading])
    whose shape differs from the one the axes imply makes the constructor
    raise, naming the actual and the expected shape; a container is returned
    only when every array has the implied shape. *)
Theorem init_shape_mismatch (f direction : list float) (kw : kwargs) :
  let e1 := implied_shape [f] kw in
  let e2 := implied_shape [f; direction] kw in
  let msg1 actual :=
    ("dimensions E " ++ str_tuple actual ++ " do not match t,x,f " ++ str_tuple e1)%string in
  let msg2 actual :=
    ("dimensions E " ++ str_tuple actual ++ " do not match t,x,f,direction "
     ++ str_tuple e2)%string in
  (forall a, kw_energy kw = Some a -> shape a <> e1 ->
     Spec1.init f kw = ([], Raise (Exception (msg1 (shape a)))))
  /\ (forall a, shape (dflt (full e1 NaN) (kw_energy kw)) = e1 ->
        kw_direction kw = Some a -> shape a <> e1 ->
        Spec1.init f kw = ([], Raise (Exception (msg1 (shape a)))))
  /\ (forall a, shape (dflt (full e1 NaN) (kw_energy kw)) = e1 ->
        shape (dflt (full e1 NaN) (kw_direction kw)) = e1 ->
        kw_spreading kw = Some a -> shape a <> e1 ->
        Spec1.init f kw = ([], Raise (Exception (msg1 (shape a)))))
  /\ (forall a, kw_energy kw = Some a -> shape a <> e2 ->
        Spec2.init f direction kw = ([], Raise (Exception (msg2 (shape a)))))
  /\ (forall out s, Spec1.init f kw = (out, Ret s) ->
        shape (Spec1.energy s) = e1 /\ shape (Spec1.direction s) = e1
        /\ shape (Spec1.spreading s) = e1)
  /\ (forall out s, Spec2.init f direction kw = (out, Ret s) ->
        shape (Spec2.energy s) = e2).
Proof.
  intros e1 e2 msg1 msg2. unfold Spec1.init, Spec2.init, Spec1.mismatch.
  change [length (dflt [NaN] (kw_t kw));
          Nat.max (length (dflt [NaN] (kw_x kw))) (length (dflt [NaN] (kw_lon kw)));
          length f] with e1.
  change [length (dflt [NaN] (kw_t kw));
          Nat.max (length (dflt [NaN] (kw_x kw))) (length (dflt [NaN] (kw_lon kw)));
          length f; length direction] with e2.
  split; [|split; [|split; [|split; [|split]]]].
  - intros a Ha Hne. rewrite Ha. cbn [dflt].
    destruct (shape_eq_dec (shape a) e1); [contradiction | reflexivity].
  - intros a He Ha Hne. rewrite Ha. cbn [dflt].
    destruct (shape_eq_dec _ e1); [|contradiction].
    destruct (shape_eq_dec (shape a) e1); [contradiction | reflexivity].
  - intros a He Hd Ha Hne. rewrite Ha. cbn [dflt].
    destruct (shape_eq_dec _ e1); [|contradiction].
    destruct (shape_eq_dec _ e1); [|contradiction].
    destruct (shape_eq_dec (shape a) e1); [contradiction | reflexivity].
  - intros a Ha Hne. rewrite Ha. cbn [dflt].
    destruct (shape_eq_dec (shape a) e2); [contradiction | reflexivity].
  - intros out s.
    destruct (shape_eq_dec _ e1); [|discriminate].
    destruct (shape_eq_dec _ e1); [|discriminate].
    destruct (shape_eq_dec _ e1); [|discriminate].
    intros [= _ <-]. cbn. auto.
  - intros out s. destruct (shape_eq_dec _ e2); [|discriminate].
    intros [= _ <-]. cbn. auto.
Qed.

Lemma init_shape_mismatch_witness :
  Spec1.init [Fin 1; Fin 2; Fin 3; Fin 4] kwargs_energy_234
  = ([], Raise (Exception "dimensions E (2, 3, 4) do not match t,x,f (1, 1, 4)")).
Proof.
  apply (proj1 (init_shape_mismatch [Fin 1; Fin 2; Fin 3; Fin 4] [] kwargs_energy_234)
               (full [2%nat; 3%nat; 4%nat] (Fin 0)) eq_refl).
  cbn. discriminate.
Defined.

(** ** Units tags *)

Lemma substring_m2Hz (u : string) : substring 0 9 u = "m2/Hz" -> u = "m2/Hz".
Proof.
  destruct u as [|c1 u]; cbn; [discriminate|].
  destruct u as [|c2 u]; cbn; [discriminate|].
  destruct u as [|c3 u]; cbn; [discriminate|].
  destruct u as [|c4 u]; cbn; [discriminate|].
  destruct u as [|c5 u]; cbn; [discriminate|].
  destruct u as [|c6 u]; cbn; [tauto|].
  intros H. discriminate H.
Qed.

(** C9 (the code departs from it).  [Spec1()] is tagged "m2/Hz/deg", the tag
    of rank 2, so the reductions of a freshly constructed rank-1 container
    take the unknown-units branch: [Tm01], [Tm02] and [Tp] print and return
    [None], [Hm0] prints and raises. *)
Theorem Spec1_default_units :
  exists s, Spec1_default = Some s
    /\ Spec1.energy_units s = "m2/Hz/deg"
    /\ Spec1.Hm0 s (Freq 0) PlusInf = (["unknown units m2/Hz/deg"], Raise TypeError)
    /\ Spec1.Tm01 s = ([("unknown units:" ++ dquote ++ " m2/Hz/deg " ++ dquote)%string],
                       Ret PyNone)
    /\ Spec1.Tm02 s = ([("unknown units:" ++ dquote ++ " m2/Hz/deg " ++ dquote)%string],
                       Ret PyNone)
    /\ Spec1.Tp s = ([("unknown units:" ++ dquote ++ " m2/Hz/deg " ++ dquote)%string],
                     Ret PyNone).
Proof.
  eexists. split; [reflexivity|]. repeat split.
Qed.

(** C2 (the code departs from it for [Hm0]).  With a units tag other than
    the expected one, [Tm01], [Tm02], [Tp] and (rank 2) [pdir] print one
    diagnostic line and return [None]; [Hm0] prints its diagnostic and then
    raises a TypeError, because it takes [4*np.sqrt] of the [None] it meant to
    return. *)
Theorem unknown_units_reductions :
  (forall (s : Spec1.self) (fmin fmax : bound),
     Spec1.energy_units s <> "m2/Hz" ->
     let line := ("unknown units:" ++ dquote ++ " " ++ Spec1.energy_units s
                  ++ " " ++ dquote)%string in
     Spec1.Hm0 s fmin fmax
       = ([("unknown units " ++ Spec1.energy_units s)%string], Raise TypeError)
     /\ Spec1.Tm01 s = ([line], Ret PyNone)
     /\ Spec1.Tm02 s = ([line], Ret PyNone)
     /\ Spec1.Tp s = ([line], Ret PyNone))
  /\ (forall (s : Spec2.self) (fmin fmax : bound),
        substring 0 9 (Spec2.energy_units s) <> "m2/Hz/deg" ->
        let line := ("unknown units:" ++ dquote ++ " " ++ Spec2.energy_units s
                     ++ " " ++ dquote)%string in
        Spec2.Hm0 s fmin fmax = ([line], Raise TypeError)
        /\ Spec2.Tm01 s = ([line], Ret PyNone)
        /\ Spec2.Tm02 s = ([line], Ret PyNone)
        /\ Spec2.Tp s = ([line], Ret PyNone)
        /\ Spec2.pdir s = ([line], Ret PyNone)).
Proof.
  split.
  - intros s fmin fmax Hu line.
    assert (H1 : String.eqb (Spec1.energy_units s) "m2/Hz" = false).
    { apply String.eqb_neq. exact Hu. }
    assert (H2 : Spec1.units_ok s = false).
    { unfold Spec1.units_ok. apply String.eqb_neq. intros E.
      apply Hu, substring_m2Hz, E. }
    unfold Spec1.Hm0, Spec1.Tm01, Spec1.Tm02, Spec1.Tp. rewrite H1, H2.
    repeat split.
  - intros s fmin fmax Hu line.
    assert (H2 : Spec2.units_ok s = false).
    { unfold Spec2.units_ok. apply String.eqb_neq. exact Hu. }
    unfold Spec2.Hm0, Spec2.Tm01, Spec2.Tm02, Spec2.Tp, Spec2.pdir. rewrite H2.
    repeat split.
Qed.

Lemma unknown_units_reductions_witness :
  Spec2.Hm0 Spec2_rad (Freq 0) PlusInf
  = ([("unknown units:" ++ dquote ++ " m2/Hz/rad " ++ dquote)%string], Raise TypeError).
Proof.
  apply (proj2 unknown_units_reductions Spec2_rad (Freq 0) PlusInf).
  cbn. discriminate.
Defined.

(** ** The parameter aggregate *)


Lemma from_Spec_rank1_raises (a : Spec0.self) (s : Spec1.self) :
  exists out e, Spec0.from_Spec a (Rank1 s) = (out, Raise e).
Proof.
  unfold Spec0.from_Spec, bind.
  destruct (Spec0.call_Hm0 (Rank1 s)) as [o1 [v1|e1]]; [|eauto].
  destruct (Spec0.call_Tp (Rank1 s)) as [o2 [v2|e2]]; [|eauto].
  destruct (Spec0.call_Tm01 (Rank1 s)) as [o3 [v3|e3]]; [|eauto].
  destruct (Spec0.call_Tm02 (Rank1 s)) as [o4 [v4|e4]]; [|eauto].
  cbn. eauto.
Qed.

(** C6 (the code departs from it).  A rank-1 container makes [from_Spec]
    raise, since it has no [pdir]; for a rank-2 container with two times and
    one location [Hs], [Tm01] and [Tm02] have shape (2, 1) while [Tp] and
    [pdir] are single numbers, the peak of the flattened array.  [ms] keeps
    the empty array of the constructor. *)
Theorem from_Spec_shapes :
  (forall (a : Spec0.self) (s : Spec1.self),
     exists out e, Spec0.from_Spec a (Rank1 s) = (out, Raise e))
  /\ exists agg,
       Spec0.from_Spec (Spec0.init no_kwargs) (Rank2 Spec2_two_times) = ([], Ret agg)
       /\ shape_of (Spec0.Hs agg) = Some [2%nat; 1%nat]
       /\ shape_of (Spec0.Tm01 agg) = Some [2%nat; 1%nat]
       /\ shape_of (Spec0.Tm02 agg) = Some [2%nat; 1%nat]
       /\ Spec0.Tp agg = PyFloat (Fin (1 / 0.1))
       /\ Spec0.pdir agg = PyFloat (Fin 0)
       /\ shape_of (Spec0.Tp agg) = Some []
       /\ shape_of (Spec0.pdir agg) = Some []
       /\ Spec0.ms agg = Spec0.empty2d.
Proof.
  split; [exact from_Spec_rank1_raises|].
  unfold Spec0.from_Spec, Spec0.call_Hm0, Spec0.call_Tp, Spec0.call_Tm01,
    Spec0.call_Tm02, Spec0.call_pdir.
  unfold Spec2.Hm0, Spec2.Tp, Spec2.Tm01, Spec2.Tm02, Spec2.pdir.
  cbn.
  decide_reals.
  cbn. decide_reals.
  eexists. split; [reflexivity|]. cbn. repeat split.
Qed.

(** ** Rows of an array *)

Lemma chunks_length {A} (k n : nat) (l : list A) : length (chunks k n l) = k.
Proof. revert l. induction k as [|k IH]; intros l; simpl; [reflexivity | now rewrite IH]. Qed.

Lemma chunks_map {A B} (g : A -> B) (k n : nat) (l : list A) :
  chunks k n (map g l) = map (map g) (chunks k n l).
Proof.
  revert l. induction k as [|k IH]; intros l; simpl; [reflexivity|].
  rewrite firstn_map, skipn_map, IH. reflexivity.
Qed.

Lemma chunks_row_length {A} (k n : nat) (l : list A) :
  (k * n <= length l)%nat -> Forall (fun r => length r = n) (chunks k n l).
Proof.
  revert l. induction k as [|k IH]; intros l Hl; simpl; constructor.
  - rewrite length_firstn. simpl in Hl. lia.
  - apply IH. rewrite length_skipn. simpl in Hl. lia.
Qed.

Lemma chunks_concat {A} (n : nat) (ls : list (list A)) :
  Forall (fun r => length r = n) ls -> chunks (length ls) n (concat ls) = ls.
Proof.
  induction 1 as [|r ls Hr _ IH]; simpl; [reflexivity|].
  rewrite firstn_app, skipn_app, Hr, Nat.sub_diag, firstn_all2, skipn_all2 by lia.
  simpl. rewrite app_nil_r, IH. reflexivity.
Qed.


Lemma concat_length_rows {A} (n : nat) (ls : list (list A)) :
  Forall (fun r => length r = n) ls -> length (concat ls) = (length ls * n)%nat.
Proof.
  induction 1 as [|r ls Hr _ IH]; simpl; [reflexivity|].
  rewrite length_app, IH, Hr. reflexivity.
Qed.

Lemma removelast_snoc {A} (s : list A) (n : A) : removelast (s ++ [n]) = s.
Proof. apply removelast_last. Qed.

Lemma last_snoc {A} (s : list A) (n d : A) : last (s ++ [n]) d = n.
Proof. apply last_last. Qed.

Lemma size_of_snoc (s : list nat) (n : nat) : size_of (s ++ [n]) = (size_of s * n)%nat.
Proof.
  induction s as [|a s IH]; simpl; [lia|]. unfold size_of in *. rewrite IH. lia.
Qed.

Lemma rows_holds (a : ndarray) (s : list nat) (n : nat) (cells : list R) :
  holds a (s ++ [n]) cells -> rows a = map (map Fin) (rowsR s n cells).
Proof.
  intros (Hs & Hd & _). unfold rows, rowsR.
  rewrite Hs, Hd, removelast_snoc, last_snoc, chunks_map. reflexivity.
Qed.

Lemma rowsR_length (s : list nat) (n : nat) (cells : list R) :
  length (rowsR s n cells) = size_of s.
Proof. apply chunks_length. Qed.

Lemma rowsR_row_length (s : list nat) (n : nat) (cells : list R) :
  length cells = size_of (s ++ [n]) ->
  Forall (fun r => length r = n) (rowsR s n cells).
Proof.
  intros H. apply chunks_row_length. rewrite H, size_of_snoc. lia.
Qed.

Lemma holds_rows (a : ndarray) (s : list nat) (n : nat) (rws : list (list R)) :
  shape a = s ++ [n] -> length rws = size_of s ->
  Forall (fun r => length r = n) rws ->
  data a = map Fin (concat rws) ->
  holds a (s ++ [n]) (concat rws) /\ rowsR s n (concat rws) = rws.
Proof.
  intros Hs Hk Hn Hd. split.
  - split; [exact Hs|]. split; [exact Hd|].
    rewrite size_of_snoc, <- Hk. apply concat_length_rows. exact Hn.
  - unfold rowsR. rewrite <- Hk. apply chunks_concat. exact Hn.
Qed.

Lemma along_last_holds (g : list float -> float) (gR : list R -> R)
    (a : ndarray) (s : list nat) (n : nat) (cells : list R) :
  holds a (s ++ [n]) cells ->
  Forall (fun r => g (map Fin r) = Fin (gR r)) (rowsR s n cells) ->
  holds (along_last g a) s (map gR (rowsR s n cells)).
Proof.
  intros H Hg. pose proof (rows_holds _ _ _ _ H) as Hr.
  destruct H as (Hs & Hd & Hl). unfold along_last. rewrite Hr, Hs, removelast_snoc.
  split; [reflexivity|]. cbn [data]. split.
  - rewrite !map_map. apply map_ext_in. intros r Hin.
    rewrite Forall_forall in Hg. apply Hg, Hin.
  - rewrite length_map. apply rowsR_length.
Qed.

Lemma np_trapz_holds (a : ndarray) (s : list nat) (n : nat) (cells x : list R) :
  holds a (s ++ [n]) cells ->
  holds (np_trapz a (map Fin x)) s (map (fun r => trapzR r x) (rowsR s n cells)).
Proof.
  intros H. apply along_last_holds with (gR := fun r => trapzR r x); [exact H|].
  apply Forall_forall. intros r _. apply trapz_Fin.
Qed.

(** ** The omnidirectional spectra *)

Lemma ndarray_eq (a b : ndarray) : shape a = shape b -> data a = data b -> a = b.
Proof. destruct a, b. simpl. intros -> ->. reflexivity. Qed.

Lemma map_nd_holds (g : float -> float) (gR : R -> R) (a : ndarray)
    (s : list nat) (cells : list R) :
  (forall v, g (Fin v) = Fin (gR v)) ->
  holds a s cells -> holds (map_nd g a) s (map gR cells).
Proof.
  intros Hg (Hs & Hd & Hl). unfold map_nd. split; [exact Hs|]. cbn [data]. split.
  - rewrite Hd, !map_map. apply map_ext. exact Hg.
  - rewrite length_map. exact Hl.
Qed.

Lemma spec1_holds (s : Spec2.self) (lead : list nat) (nd : nat) (cells dirs : list R) :
  holds (Spec2.energy s) (lead ++ [nd]) cells ->
  Spec2.direction s = map Fin dirs ->
  holds (Spec2.spec1 s) lead
        (map Rabs (map (fun r => trapzR r dirs) (rowsR lead nd cells))).
Proof.
  intros H Hdir. unfold Spec2.spec1. rewrite Hdir.
  apply map_nd_holds; [reflexivity|]. apply np_trapz_holds. exact H.
Qed.

(** ** Spectral moments *)
















(** ** Cumulative integral and interpolation *)

Lemma cumtrapz_from_cons2 (acc y0 y1 x0 x1 : float) (y x : list float) :
  cumtrapz_from acc (y0 :: y1 :: y) (x0 :: x1 :: x)
  = let acc' := fadd acc (fdiv (fmul (fsub x1 x0) (fadd y1 y0)) (Fin 2)) in
    acc' :: cumtrapz_from acc' (y1 :: y) (x1 :: x).
Proof. reflexivity. Qed.

Lemma cumtrapzR_from_cons2 (acc y0 y1 x0 x1 : R) (y x : list R) :
  cumtrapzR_from acc (y0 :: y1 :: y) (x0 :: x1 :: x)
  = (acc + (x1 - x0) * (y1 + y0) / 2)
    :: cumtrapzR_from (acc + (x1 - x0) * (y1 + y0) / 2) (y1 :: y) (x1 :: x).
Proof. reflexivity. Qed.

Lemma cumtrapz_from_Fin (acc : R) (y x : list R) :
  cumtrapz_from (Fin acc) (map Fin y) (map Fin x) = map Fin (cumtrapzR_from acc y x).
Proof.
  revert acc x. induction y as [|y0 y IH]; intros acc [|x0 x]; try reflexivity.
  destruct y as [|y1 y]; destruct x as [|x1 x]; try reflexivity.
  specialize (IH (acc + (x1 - x0) * (y1 + y0) / 2) (x1 :: x)).
  rewrite cumtrapzR_from_cons2.
  cbn [map] in *. rewrite cumtrapz_from_cons2.
  cbn [fsub fadd fmul lift2]. rewrite fdiv_2. cbn [fadd lift2]. cbv zeta.
  rewrite IH. reflexivity.
Qed.

Lemma cumtrapz_Fin (y x : list R) :
  cumtrapz (map Fin y) (map Fin x) = map Fin (cumtrapzR y x).
Proof. unfold cumtrapz, cumtrapzR. rewrite cumtrapz_from_Fin. reflexivity. Qed.

Lemma cumtrapzR_from_length (acc : R) (y x : list R) :
  length y = length x -> length (cumtrapzR_from acc y x) = pred (length x).
Proof.
  revert acc x. induction y as [|y0 y IH]; intros acc [|x0 x] Hlen; try discriminate;
    [reflexivity|].
  destruct y as [|y1 y]; destruct x as [|x1 x]; try discriminate; [reflexivity|].
  specialize (IH (acc + (x1 - x0) * (y1 + y0) / 2) (x1 :: x)).
  rewrite cumtrapzR_from_cons2. cbn [length pred] in *. rewrite IH by lia.
  reflexivity.
Qed.

Lemma cumtrapzR_length (y x : list R) :
  length y = length x -> x <> [] -> length (cumtrapzR y x) = length x.
Proof.
  intros Hlen Hne. unfold cumtrapzR. cbn [length].
  rewrite cumtrapzR_from_length by exact Hlen.
  destruct x; [contradiction | reflexivity].
Qed.

Lemma cumtrapzR_from_last (acc : R) (y x : list R) :
  last (acc :: cumtrapzR_from acc y x) 0 = acc + trapzR y x.
Proof.
  revert acc x. induction y as [|y0 y IH]; intros acc [|x0 x]; try (cbn; lra).
  destruct y as [|y1 y]; destruct x as [|x1 x]; try (cbn; lra).
  specialize (IH (acc + (x1 - x0) * (y1 + y0) / 2) (x1 :: x)).
  rewrite trapzR_cons2.
  change (cumtrapzR_from acc (y0 :: y1 :: y) (x0 :: x1 :: x))
    with ((acc + (x1 - x0) * (y1 + y0) / 2)
          :: cumtrapzR_from (acc + (x1 - x0) * (y1 + y0) / 2) (y1 :: y) (x1 :: x)).
  change (last (acc :: ?a :: ?l) 0) with (last (a :: l) 0).
  rewrite IH. lra.
Qed.

Lemma cumtrapzR_last (y x : list R) : last (cumtrapzR y x) 0 = trapzR y x.
Proof. unfold cumtrapzR. rewrite cumtrapzR_from_last. lra. Qed.



Lemma nondecreasing_hd_last (l : list R) (d : R) :
  nondecreasing l -> hd d l <= last l d.
Proof.
  induction l as [|a l IH]; intros H; [cbn; lra|].
  destruct l as [|b l]; [cbn; lra|]. destruct H as [Hab H].
  specialize (IH H). cbn [hd] in *. change (last (a :: b :: l) d) with (last (b :: l) d).
  lra.
Qed.

Lemma increasing_nondecreasing (l : list R) : increasing l -> nondecreasing l.
Proof.
  induction l as [|a l IH]; intros H; [exact I|].
  destruct l as [|b l]; [exact I|]. destruct H as [Hab H]. split; [lra | auto].
Qed.



Lemma interp_scanR_cons2 (r x0 x1 y0 y1 : R) (xp fp : list R) :
  interp_scanR r (x0 :: x1 :: xp) (y0 :: y1 :: fp)
  = if Rlt_dec r x1
    then if Req_dec_T r x0 then y0 else (y1 - y0) / (x1 - x0) * (r - x0) + y0
    else interp_scanR r (x1 :: xp) (y1 :: fp).
Proof. reflexivity. Qed.



Lemma increasing_hd_last (l : list R) (d : R) : increasing l -> hd d l <= last l d.
Proof. intros H. apply nondecreasing_hd_last, increasing_nondecreasing, H. Qed.

Lemma interp_scanR_at_last (xp fp : list R) :
  length xp = length fp -> increasing xp -> xp <> [] ->
  interp_scanR (last xp 0) xp fp = last fp 0.
Proof.
  revert fp. induction xp as [|x0 xp IH]; intros [|y0 fp] Hlen Hx Hne;
    try discriminate; [contradiction|].
  destruct xp as [|x1 xp]; destruct fp as [|y1 fp]; try discriminate; [reflexivity|].
  destruct Hx as [Hx01 Hx].
  change (last (x0 :: x1 :: xp) 0) with (last (x1 :: xp) 0).
  change (last (y0 :: y1 :: fp) 0) with (last (y1 :: fp) 0).
  rewrite interp_scanR_cons2.
  pose proof (increasing_hd_last (x1 :: xp) 0 Hx) as Hl. cbn [hd] in Hl.
  destruct (Rlt_dec (last (x1 :: xp) 0) x1); [lra|].
  apply IH; auto; try (cbn [length] in *; lia); try discriminate.
Qed.

Lemma interp_scanR_at_hd (xp fp : list R) :
  length xp = length fp -> increasing xp -> xp <> [] ->
  interp_scanR (hd 0 xp) xp fp = hd 0 fp.
Proof.
  intros Hlen Hx Hne.
  destruct xp as [|x0 xp]; [contradiction|]. destruct fp as [|y0 fp]; [discriminate|].
  destruct xp as [|x1 xp]; destruct fp as [|y1 fp]; try discriminate; [reflexivity|].
  destruct Hx as [Hx01 _]. cbn [hd]. rewrite interp_scanR_cons2.
  destruct (Rlt_dec x0 x1); [|lra]. destruct (Req_dec_T x0 x0); [reflexivity | lra].
Qed.

Section Interpolation.

Variables xp fp : list R.
Hypothesis Hlen : length xp = length fp.
Hypothesis Hne : xp <> [].
Hypothesis Hinc : increasing xp.

(** Right of the samples, and at the last one, [fp[-1]]. *)
Lemma interpR_right (b : bound) :
  ble (Freq (last xp 0)) b -> interpR b xp fp = last fp 0.
Proof.
  destruct b as [r|]; [|reflexivity]. cbn [ble]. intros Hr. unfold interpR.
  pose proof (increasing_hd_last xp 0 Hinc) as Hl.
  destruct (Rlt_dec r (hd 0 xp)); [lra|].
  destruct (Rlt_dec (last xp 0) r); [reflexivity|].
  assert (r = last xp 0) as -> by lra.
  apply interp_scanR_at_last; assumption.
Qed.

(** Left of the samples, and at the first one, [fp[0]]. *)
Lemma interpR_left (r : R) :
  r <= hd 0 xp -> interpR (Freq r) xp fp = hd 0 fp.
Proof.
  intros Hr. unfold interpR.
  pose proof (increasing_hd_last xp 0 Hinc) as Hl.
  destruct (Rlt_dec r (hd 0 xp)); [reflexivity|].
  destruct (Rlt_dec (last xp 0) r); [lra|].
  assert (r = hd 0 xp) as -> by lra.
  apply interp_scanR_at_hd; assumption.
Qed.

Hypothesis Hfp : nondecreasing fp.



End Interpolation.

Lemma last_map_Fin (l : list R) : l <> [] -> last (map Fin l) NaN = Fin (last l 0).
Proof.
  induction l as [|a l IH]; intros Hne; [contradiction|].
  destruct l as [|b l]; [reflexivity|].
  change (last (map Fin (a :: b :: l)) NaN) with (last (map Fin (b :: l)) NaN).
  change (last (a :: b :: l) 0) with (last (b :: l) 0).
  apply IH. discriminate.
Qed.

Lemma interp_scan_Fin (r : R) (xp fp : list R) :
  length xp = length fp -> increasing xp -> xp <> [] ->
  interp_scan r (map Fin xp) (map Fin fp) = Fin (interp_scanR r xp fp).
Proof.
  revert fp. induction xp as [|x0 xp IH]; intros [|y0 fp] Hlen Hx Hne;
    try discriminate; [contradiction|].
  destruct xp as [|x1 xp]; destruct fp as [|y1 fp]; try discriminate; [reflexivity|].
  destruct Hx as [Hx01 Hx]. rewrite interp_scanR_cons2.
  specialize (IH (y1 :: fp)).
  cbn [map interp_scan] in *.
  destruct (Rlt_dec r x1).
  - destruct (Req_dec_T r x0); [reflexivity|].
    cbn [fsub lift2]. rewrite fdiv_Fin by lra. reflexivity.
  - apply IH; auto; try (cbn [length] in *; lia); try discriminate.
Qed.

Lemma interp_Fin (b : bound) (xp fp : list R) :
  length xp = length fp -> increasing xp -> xp <> [] ->
  interp b (map Fin xp) (map Fin fp) = ret (Fin (interpR b xp fp)).
Proof.
  intros Hlen Hx Hne.
  destruct xp as [|x0 xs]; [contradiction|]. destruct fp as [|y0 fs]; [discriminate|].
  unfold interp, interpR.
  rewrite !last_map_Fin by discriminate.
  rewrite !length_map, Hlen, Nat.eqb_refl.
  cbn [map negb hd].
  destruct b as [r|]; cbn [blt_float bgt_float]; [|reflexivity].
  destruct (Rlt_dec r x0); [reflexivity|].
  destruct (Rlt_dec (last (x0 :: xs) 0) r); [reflexivity|].
  change (Fin x0 :: map Fin xs) with (map Fin (x0 :: xs)).
  change (Fin y0 :: map Fin fs) with (map Fin (y0 :: fs)).
  rewrite interp_scan_Fin by assumption. reflexivity.
Qed.

(** ** Frequency-range [Hm0] *)

Lemma mapM_ret {A B} (k : A -> Py B) (g : A -> B) (l : list A) :
  (forall a, In a l -> k a = ret (g a)) -> mapM k l = ret (map g l).
Proof.
  induction l as [|a l IH]; intros H; [reflexivity|].
  cbn [mapM map]. rewrite (H a) by (now left). rewrite IH.
  - reflexivity.
  - intros b Hb. apply H. now right.
Qed.

Lemma mapM_map {A B C} (k : B -> Py C) (h : A -> B) (l : list A) :
  mapM k (map h l) = mapM (fun a => k (h a)) l.
Proof.
  induction l as [|a l IH]; [reflexivity|]. cbn [map mapM]. now rewrite IH.
Qed.

Section Band.

Variables (spec : ndarray) (nt nxy nf : nat) (cells fr : list R).
Hypothesis Hspec : holds spec [nt; nxy; nf] cells.
Hypothesis Hlen : length fr = nf.
Hypothesis Hne : fr <> [].
Hypothesis Hax : frequency_axis fr.

Lemma rws_length (r : list R) : In r (rowsR [nt; nxy] nf cells) -> length r = nf.
Proof.
  intros Hin. destruct Hspec as (_ & _ & Hl).
  pose proof (rowsR_row_length [nt; nxy] nf cells Hl) as H.
  rewrite Forall_forall in H. exact (H r Hin).
Qed.

Lemma cumtrapz_last_rows :
  rows (cumtrapz_last spec (map Fin fr))
  = map (map Fin) (map (fun r => cumtrapzR r fr) (rowsR [nt; nxy] nf cells)).
Proof.
  pose proof (rows_holds spec [nt; nxy] nf cells Hspec) as Hr.
  assert (H : holds (cumtrapz_last spec (map Fin fr)) ([nt; nxy] ++ [nf])
                    (concat (map (fun r => cumtrapzR r fr) (rowsR [nt; nxy] nf cells)))
              /\ rowsR [nt; nxy] nf (concat (map (fun r => cumtrapzR r fr) (rowsR [nt; nxy] nf cells)))
                 = map (fun r => cumtrapzR r fr) (rowsR [nt; nxy] nf cells)).
  { apply holds_rows.
    - destruct Hspec as (Hs & _). exact Hs.
    - rewrite length_map. apply rowsR_length.
    - apply Forall_forall. intros c Hc. apply in_map_iff in Hc.
      destruct Hc as (r & <- & Hin).
      rewrite cumtrapzR_length; [exact Hlen | | exact Hne].
      rewrite (rws_length r Hin). symmetry. exact Hlen.
    - unfold cumtrapz_last. cbn [data]. rewrite Hr, concat_map, !map_map.
      f_equal. apply map_ext. intros r. apply cumtrapz_Fin. }
  destruct H as [H Hrows]. rewrite (rows_holds _ _ _ _ H), Hrows. reflexivity.
Qed.

Lemma band_m0_value (fmin fmax : bound) :
  band_m0 spec (map Fin fr) fmin fmax
  = ret (mk_ndarray [nt; nxy] (map Fin (map (band_energy fr fmin fmax) (rowsR [nt; nxy] nf cells)))).
Proof.
  unfold band_m0. rewrite cumtrapz_last_rows.
  assert (Hshape : firstn 2 (shape (cumtrapz_last spec (map Fin fr))) = [nt; nxy]).
  { unfold cumtrapz_last. cbn [shape]. destruct Hspec as (-> & _). reflexivity. }
  rewrite Hshape.
  rewrite map_map, mapM_map.
  rewrite (mapM_ret _ (fun r => Fin (band_energy fr fmin fmax r))).
  - cbn. rewrite map_map. reflexivity.
  - intros r Hin.
    assert (Hc : length fr = length (cumtrapzR r fr)).
    { rewrite cumtrapzR_length; [reflexivity | | exact Hne].
      rewrite (rws_length r Hin). symmetry. exact Hlen. }
    destruct Hax as [_ Hinc].
    rewrite !interp_Fin by assumption. reflexivity.
Qed.

Lemma cum_at_zero (r : list R) : cum_at fr r (Freq 0) = 0.
Proof.
  unfold cum_at, interpR. destruct Hax as [Hpos _].
  destruct fr as [|f0 fs]; [contradiction|]. inversion Hpos; subst. cbn [hd].
  destruct (Rlt_dec 0 f0); [reflexivity | lra].
Qed.

Lemma cum_at_inf (r : list R) : cum_at fr r PlusInf = trapzR r fr.
Proof. unfold cum_at, interpR. apply cumtrapzR_last. Qed.

Lemma full_band_energy (r : list R) :
  band_energy fr (Freq 0) PlusInf r = trapzR r fr.
Proof. unfold band_energy. rewrite cum_at_zero, cum_at_inf. lra. Qed.

(** The array [m0] of both branches of [Hm0]. *)
Lemma m0_value (fmin fmax : bound) :
  (if is_full_band fmin fmax
   then ret (PyArr (np_trapz spec (map Fin fr)))
   else (a <- band_m0 spec (map Fin fr) fmin fmax ;; ret (PyArr a))%py)
  = ret (PyArr (mk_ndarray [nt; nxy]
                  (map Fin (map (band_energy fr fmin fmax) (rowsR [nt; nxy] nf cells))))).
Proof.
  destruct (is_full_band fmin fmax) eqn:Efull.
  - unfold is_full_band in Efull.
    destruct fmin as [r0|]; [|discriminate]. destruct fmax; [discriminate|].
    destruct (Req_dec_T r0 0) as [->|]; [|discriminate].
    do 2 f_equal.
    pose proof (np_trapz_holds spec [nt; nxy] nf cells fr Hspec) as (Hs & Hd & _).
    apply ndarray_eq; [exact Hs|]. cbn [data]. rewrite Hd.
    f_equal. apply map_ext. intros r. symmetry. apply full_band_energy.
  - rewrite band_m0_value. reflexivity.
Qed.

Lemma Hm0_body_value (fmin fmax : bound) :
  Hm0_body spec (map Fin fr) fmin fmax
  = ret (PyArr (mk_ndarray [nt; nxy]
           (map (fun r => fmul (Fin 4) (fsqrt (Fin (band_energy fr fmin fmax r))))
                (rowsR [nt; nxy] nf cells)))).
Proof.
  unfold Hm0_body. rewrite m0_value. cbn. unfold map_nd. cbn [shape data].
  rewrite !map_map. reflexivity.
Qed.


Hypothesis Hnonneg : Forall (fun e => 0 <= e) cells.




End Band.

Lemma Spec1_Hm0_body (s : Spec1.self) (fmin fmax : bound) :
  Spec1.energy_units s = "m2/Hz" ->
  Spec1.Hm0 s fmin fmax = Hm0_body (Spec1.energy s) (Spec1.f s) fmin fmax.
Proof. intros Hu. unfold Spec1.Hm0. rewrite Hu. reflexivity. Qed.

Lemma Spec2_Hm0_body (s : Spec2.self) (fmin fmax : bound) :
  substring 0 9 (Spec2.energy_units s) = "m2/Hz/deg" ->
  Spec2.Hm0 s fmin fmax = Hm0_body (Spec2.spec1 s) (Spec2.f s) fmin fmax.
Proof. intros Hu. unfold Spec2.Hm0, Spec2.units_ok. rewrite Hu. reflexivity. Qed.



(** C10. For a rank-1 container tagged "m2/Hz" over a positive increasing
    frequency axis, a bound at or beyond the last sample acts as the last
    sample and a lower bound at or below the first sample acts as the first
    sample: the interpolated cumulative integral is clamped to its end
    values, and the call returns without a diagnostic. *)
Theorem Hm0_band_clamps (s : Spec1.self) (nt nxy nf : nat) (cells fr : list R)
    (fmin : R) (fmax : bound) :
  Spec1.energy_units s = "m2/Hz" ->
  holds (Spec1.energy s) [nt; nxy; nf] cells ->
  Spec1.f s = map Fin fr -> length fr = nf -> fr <> [] -> frequency_axis fr ->
  0 < fmin ->
  (exists h, Spec1.Hm0 s (Freq fmin) fmax = ([], Ret h))
  /\ (ble (Freq (last fr 0)) fmax ->
      Spec1.Hm0 s (Freq fmin) fmax = Spec1.Hm0 s (Freq fmin) (Freq (last fr 0)))
  /\ (fmin <= hd 0 fr ->
      Spec1.Hm0 s (Freq fmin) fmax = Spec1.Hm0 s (Freq (hd 0 fr)) fmax).
Proof.
  intros Hu H Hf Hlen Hne Hax _.
  rewrite !Spec1_Hm0_body by exact Hu. rewrite Hf.
  rewrite !(Hm0_body_value _ nt nxy nf cells fr H Hlen Hne Hax).
  assert (Hc : forall r, In r (rowsR [nt; nxy] nf cells) ->
                         length fr = length (cumtrapzR r fr)).
  { intros r Hin. rewrite cumtrapzR_length; [reflexivity | | exact Hne].
    rewrite (rws_length _ nt nxy nf cells H r Hin). symmetry. exact Hlen. }
  destruct Hax as [_ Hinc].
  split; [eexists; reflexivity|]. split.
  - intros Hhi. do 3 f_equal. apply map_ext_in. intros r Hin.
    unfold band_energy, cum_at.
    rewrite (interpR_right fr _ (Hc r Hin) Hne Hinc fmax Hhi).
    rewrite (interpR_right fr _ (Hc r Hin) Hne Hinc (Freq (last fr 0)))
      by (cbn; lra).
    reflexivity.
  - intros Hlo. do 3 f_equal. apply map_ext_in. intros r Hin.
    unfold band_energy, cum_at.
    rewrite (interpR_left fr _ (Hc r Hin) Hne Hinc fmin Hlo).
    rewrite (interpR_left fr _ (Hc r Hin) Hne Hinc (hd 0 fr)) by lra.
    reflexivity.
Qed.

Lemma Hm0_band_clamps_witness :
  (exists h, Spec1.Hm0 Spec1_two_samples (Freq 0.5) PlusInf = ([], Ret h))
  /\ (ble (Freq (last [1; 2] 0)) PlusInf ->
      Spec1.Hm0 Spec1_two_samples (Freq 0.5) PlusInf
      = Spec1.Hm0 Spec1_two_samples (Freq 0.5) (Freq (last [1; 2] 0)))
  /\ (0.5 <= hd 0 [1; 2] ->
      Spec1.Hm0 Spec1_two_samples (Freq 0.5) PlusInf
      = Spec1.Hm0 Spec1_two_samples (Freq (hd 0 [1; 2])) PlusInf).
Proof.
  apply (Hm0_band_clamps Spec1_two_samples 1 1 2 [1; 3] [1; 2] 0.5 PlusInf).
  - reflexivity.
  - repeat split.
  - reflexivity.
  - reflexivity.
  - discriminate.
  - split; [repeat constructor; lra | simpl; lra].
  - lra.
Defined.


(** ** Further properties of the reductions *)

(** X2.  Rank 2, for a lower bound [0 < fmin] (so that the call stays in
    the frequency-range branch) and a direction axis as long as the last
    axis of the energy: bounds outside the sampled band are clamped to its
    ends, as for rank 1. *)
Theorem Spec2_Hm0_band_clamps (s : Spec2.self) (nt nxy nf nd : nat)
    (cells fr dirs : list R) (fmin : R) (fmax : bound) :
  substring 0 9 (Spec2.energy_units s) = "m2/Hz/deg" ->
  holds (Spec2.energy s) [nt; nxy; nf; nd] cells ->
  Spec2.direction s = map Fin dirs -> length dirs = nd ->
  Spec2.f s = map Fin fr -> length fr = nf -> fr <> [] -> frequency_axis fr ->
  0 < fmin ->
  (exists h, Spec2.Hm0 s (Freq fmin) fmax = ([], Ret h))
  /\ (ble (Freq (last fr 0)) fmax ->
      Spec2.Hm0 s (Freq fmin) fmax = Spec2.Hm0 s (Freq fmin) (Freq (last fr 0)))
  /\ (fmin <= hd 0 fr ->
      Spec2.Hm0 s (Freq fmin) fmax = Spec2.Hm0 s (Freq (hd 0 fr)) fmax).
Proof.
  intros Hu H Hdir _ Hf Hlen Hne Hax _.
  change [nt; nxy; nf; nd] with ([nt; nxy; nf] ++ [nd]) in H.
  pose proof (spec1_holds s _ _ _ _ H Hdir) as H1.
  fold (omni dirs nt nxy nf nd cells) in H1.
  rewrite !Spec2_Hm0_body by exact Hu. rewrite Hf.
  rewrite !(Hm0_body_value _ nt nxy nf _ fr H1 Hlen Hne Hax).
  assert (Hc : forall r, In r (rowsR [nt; nxy] nf (omni dirs nt nxy nf nd cells)) ->
                         length fr = length (cumtrapzR r fr)).
  { intros r Hin. rewrite cumtrapzR_length; [reflexivity | | exact Hne].
    rewrite (rws_length _ nt nxy nf _ H1 r Hin). symmetry. exact Hlen. }
  destruct Hax as [_ Hinc].
  split; [eexists; reflexivity|]. split.
  - intros Hhi. do 3 f_equal. apply map_ext_in. intros r Hin.
    unfold band_energy, cum_at.
    rewrite (interpR_right fr _ (Hc r Hin) Hne Hinc fmax Hhi).
    rewrite (interpR_right fr _ (Hc r Hin) Hne Hinc (Freq (last fr 0)))
      by (cbn; lra).
    reflexivity.
  - intros Hlo. do 3 f_equal. apply map_ext_in. intros r Hin.
    unfold band_energy, cum_at.
    rewrite (interpR_left fr _ (Hc r Hin) Hne Hinc fmin Hlo).
    rewrite (interpR_left fr _ (Hc r Hin) Hne Hinc (hd 0 fr)) by lra.
    reflexivity.
Qed.

Lemma Spec2_Hm0_band_clamps_witness :
  (exists h, Spec2.Hm0 Spec2_two_times (Freq 0.05) (Freq 1) = ([], Ret h))
  /\ (ble (Freq (last [0.1; 0.2] 0)) (Freq 1) ->
      Spec2.Hm0 Spec2_two_times (Freq 0.05) (Freq 1)
      = Spec2.Hm0 Spec2_two_times (Freq 0.05) (Freq (last [0.1; 0.2] 0)))
  /\ (0.05 <= hd 0 [0.1; 0.2] ->
      Spec2.Hm0 Spec2_two_times (Freq 0.05) (Freq 1)
      = Spec2.Hm0 Spec2_two_times (Freq (hd 0 [0.1; 0.2])) (Freq 1)).
Proof.
  apply (Spec2_Hm0_band_clamps Spec2_two_times 2 1 2 2
           [5; 1; 1; 1; 1; 1; 2; 1] [0.1; 0.2] [0; 90] 0.05 (Freq 1)).
  - reflexivity.
  - repeat split.
  - reflexivity.
  - reflexivity.
  - reflexivity.
  - reflexivity.
  - discriminate.
  - split; [repeat constructor; lra | simpl; lra].
  - lra.
Defined.

Lemma size_of_pair (nt nxy : nat) : size_of [nt; nxy] = (nt * nxy)%nat.
Proof. cbn. lia. Qed.

(** ** More on the spreading kernel *)

Section Spreading.

Variable Gamma : R -> R.
Variable str_float : R -> string.

Lemma spreading_rad_run (dirs : list R) (pdir ms : R) (units : string) :
  substring 0 3 units = "rad" ->
  let w := map (cdir_at Gamma pdir ms) dirs in
  let intz := trapzR w dirs * 180 / PI in
  directional_spreading Gamma str_float dirs pdir ms units
  = ((if Rlt_dec (Rabs (intz - 1)) 1e-4 then []
      else [String.concat " " ["integral not 1 for ms="; str_float ms; ":";
                               str_float intz]]),
     Ret w).
Proof.
  intros Hu w intz. unfold directional_spreading. rewrite Hu.
  change (String.eqb "rad" "deg") with false.
  change (String.eqb "rad" "rad") with true. cbv iota.
  assert (Hd : map (fun d => d + 0) dirs = dirs).
  { rewrite <- (map_id dirs) at 2. apply map_ext. intros d. apply Rplus_0_r. }
  rewrite Hd. fold w. fold intz.
  destruct (Rlt_dec (Rabs (intz - 1)) 1e-4); reflexivity.
Qed.

End Spreading.

(** X12.  A unit tag that starts with neither "deg" nor "rad" ends the call with
    an exception (the code raises a plain string, which is a TypeError)
    before anything is computed or printed. *)
Theorem directional_spreading_unknown_units (Gamma : R -> R) (str_float : R -> string)
    (dirs : list R) (pdir ms : R) (units : string) :
  substring 0 3 units <> "deg" -> substring 0 3 units <> "rad" ->
  directional_spreading Gamma str_float dirs pdir ms units = ([], Raise TypeError).
Proof.
  intros Hd Hr. unfold directional_spreading.
  apply String.eqb_neq in Hd. apply String.eqb_neq in Hr. rewrite Hd, Hr. reflexivity.
Qed.

Lemma directional_spreading_unknown_units_witness :
  directional_spreading (fun _ => 1) (fun _ => EmptyString) [0; 90] 0 2 "grad"
  = ([], Raise TypeError).
Proof.
  apply (directional_spreading_unknown_units (fun _ => 1) (fun _ => EmptyString)
           [0; 90] 0 2 "grad"); cbn; discriminate.
Defined.

(** X15.  Radians.  The sampling check multiplies the integral over the sample
    directions by [180/pi] in this branch too, so a kernel that does
    integrate to 1 (within 1e-4) over a radian axis is reported as
    "integral not 1", with the value near 57.3; the weights are returned
    all the same. *)
Theorem directional_spreading_rad_check (Gamma : R -> R) (str_float : R -> string)
    (dirs : list R) (pdir ms : R) (units : string) (w : list R) (out : list string) :
  substring 0 3 units = "rad" ->
  directional_spreading Gamma str_float dirs pdir ms units = (out, Ret w) ->
  Rabs (trapzR w dirs - 1) < 1e-4 ->
  out = [String.concat " " ["integral not 1 for ms="; str_float ms; ":";
                            str_float (trapzR w dirs * 180 / PI)]]
  /\ 44 < trapzR w dirs * 180 / PI.
Proof.
  intros Hu Hrun Hint.
  rewrite (spreading_rad_run Gamma str_float dirs pdir ms units Hu) in Hrun.
  cbv zeta in Hrun. injection Hrun as Hout Hw. rewrite Hw in Hout.
  apply Rabs_def2 in Hint. destruct Hint as [Hlo Hhi].
  assert (Hbig : 44 < trapzR w dirs * 180 / PI).
  { pose proof PI_RGT_0 as HP. pose proof PI_4 as HP4.
    apply Rmult_lt_reg_r with (r := PI); [lra|].
    replace (trapzR w dirs * 180 / PI * PI) with (trapzR w dirs * 180) by (field; lra).
    lra. }
  split; [|exact Hbig].
  destruct (Rlt_dec (Rabs (trapzR w dirs * 180 / PI - 1)) 1e-4) as [Hsmall|_].
  - apply Rabs_def2 in Hsmall. lra.
  - symmetry. exact Hout.
Qed.

Lemma directional_spreading_rad_check_witness :
  fst (directional_spreading (fun _ => PI) (fun _ => EmptyString) [0; 1] 0 0 "rad")
  = [String.concat " " ["integral not 1 for ms="; EmptyString; ":"; EmptyString]]
  /\ 44 < trapzR [1; 1] [0; 1] * 180 / PI.
Proof.
  assert (Hrun : directional_spreading (fun _ => PI) (fun _ => EmptyString)
                   [0; 1] 0 0 "rad"
                 = (fst (directional_spreading (fun _ => PI) (fun _ => EmptyString)
                           [0; 1] 0 0 "rad"),
                    Ret [1; 1])).
  { rewrite (spreading_rad_run (fun _ => PI) (fun _ => EmptyString) [0; 1] 0 0 "rad"
               eq_refl).
    cbv zeta. cbn [fst]. f_equal. f_equal.
    pose proof PI_RGT_0 as HP. pose proof PI2_1 as HP2.
    assert (HA : A1 (fun _ => PI) 0 = 1).
    { unfold A1, Rpower. rewrite Rmult_0_l, exp_0. field. lra. }
    assert (Hw : forall d, 0 < cos (d - 0) -> cdir_at (fun _ => PI) 0 0 d = 1).
    { intros d Hd. unfold cdir_at. destruct (Rlt_dec 0 (cos (d - 0))); [|contradiction].
      rewrite HA. unfold Rpower. rewrite Rmult_0_l, exp_0, Rmax_left by lra. ring. }
    cbn [map]. rewrite !Hw; [reflexivity | |].
    - apply cos_gt_0; lra.
    - replace (0 - 0) with 0 by ring. rewrite cos_0. lra. }
  apply (directional_spreading_rad_check (fun _ => PI) (fun _ => EmptyString)
           [0; 1] 0 0 "rad" [1; 1] _ eq_refl Hrun).
  cbn [trapzR]. replace ((1 - 0) * (1 + 1) / 2 + 0 - 1) with 0 by field.
  rewrite Rabs_R0. lra.
Defined.

(** ** Peak period *)

(** [k] is the first index at which [l] takes its largest value. *)
Lemma argmax_from_spec (l pre : list R) (m : R) (mi : nat) :
  (mi < length pre)%nat -> nth mi pre 0 = m ->
  (forall j, (j < length pre)%nat -> nth j pre 0 <= m) ->
  (forall j, (j < mi)%nat -> nth j pre 0 < m) ->
  let k := argmax_from (Fin m) mi (length pre) (map Fin l) in
  (k < length (pre ++ l))%nat
  /\ (forall j, (j < length (pre ++ l))%nat -> nth j (pre ++ l) 0 <= nth k (pre ++ l) 0)
  /\ (forall j, (j < k)%nat -> nth j (pre ++ l) 0 < nth k (pre ++ l) 0).
Proof.
  revert pre m mi. induction l as [|x l IH]; intros pre m mi Hmi Hm Hle Hlt.
  - cbn. rewrite app_nil_r, Hm. auto.
  - cbn [map argmax_from].
    assert (Hpre : pre ++ x :: l = (pre ++ [x]) ++ l) by (rewrite <- app_assoc; reflexivity).
    assert (Hlen : length (pre ++ [x]) = S (length pre))
      by (rewrite length_app; cbn; lia).
    destruct (Rle_dec x m) as [Hx|Hx].
    + specialize (IH (pre ++ [x]) m mi). rewrite Hlen in IH. rewrite Hpre.
      apply IH.
      * lia.
      * rewrite app_nth1 by lia. exact Hm.
      * intros j Hj. destruct (Nat.lt_ge_cases j (length pre)) as [Hj'|Hj'].
        -- rewrite app_nth1 by lia. auto.
        -- assert (j = length pre) as -> by lia.
           rewrite app_nth2, Nat.sub_diag by lia. exact Hx.
      * intros j Hj. rewrite app_nth1 by lia. auto.
    + specialize (IH (pre ++ [x]) x (length pre)). rewrite Hlen in IH. rewrite Hpre.
      assert (Hmx : m < x) by lra.
      apply IH.
      * lia.
      * rewrite app_nth2, Nat.sub_diag by lia. reflexivity.
      * intros j Hj. destruct (Nat.lt_ge_cases j (length pre)) as [Hj'|Hj'].
        -- rewrite app_nth1 by lia. specialize (Hle j Hj'). lra.
        -- assert (j = length pre) as -> by lia.
           rewrite app_nth2, Nat.sub_diag by lia. cbn. lra.
      * intros j Hj. rewrite app_nth1 by lia. specialize (Hle j Hj). lra.
Qed.

Lemma argmax_spec (l : list R) :
  l <> [] ->
  exists k,
    argmax (map Fin l) = ret k
    /\ (k < length l)%nat
    /\ (forall j, (j < length l)%nat -> nth j l 0 <= nth k l 0)
    /\ (forall j, (j < k)%nat -> nth j l 0 < nth k l 0).
Proof.
  intros Hne. destruct l as [|v l]; [contradiction|].
  cbn [map argmax]. eexists. split; [reflexivity|].
  apply (argmax_from_spec l [v] v 0%nat).
  - cbn. lia.
  - reflexivity.
  - intros j Hj. cbn in Hj. assert (j = 0%nat) as -> by lia. cbn. lra.
  - intros j Hj. lia.
Qed.

Lemma getitem_Fin (fr : list R) (k : nat) :
  ((k < length fr)%nat -> getitem (map Fin fr) k = ret (Fin (nth k fr 0)))
  /\ ((length fr <= k)%nat -> getitem (map Fin fr) k = raise IndexError).
Proof.
  unfold getitem. split; intros Hk.
  - rewrite nth_error_map. rewrite (nth_error_nth' fr 0 Hk). reflexivity.
  - rewrite nth_error_map.
    assert (H : nth_error fr k = None) by (apply nth_error_None; exact Hk).
    rewrite H. reflexivity.
Qed.

(** X16.  Rank 1.  [Tp] looks for the largest energy in the whole array, all
    cells flattened: with [k] the first position of the maximum, it
    returns [1/f[k]] when [k] is a valid index of [f] (always so when the
    container holds one spectrum) and ends in an IndexError otherwise. *)
Theorem Spec1_Tp_peak (s : Spec1.self) (cells fr : list R) :
  substring 0 9 (Spec1.energy_units s) = "m2/Hz" ->
  data (Spec1.energy s) = map Fin cells -> cells <> [] ->
  Spec1.f s = map Fin fr -> Forall (fun v => 0 < v) fr ->
  exists k,
    (k < length cells)%nat
    /\ (forall j, (j < length cells)%nat -> nth j cells 0 <= nth k cells 0)
    /\ (forall j, (j < k)%nat -> nth j cells 0 < nth k cells 0)
    /\ ((k < length fr)%nat ->
        Spec1.Tp s = ([], Ret (PyFloat (Fin (1 / nth k fr 0)))))
    /\ ((length fr <= k)%nat -> Spec1.Tp s = ([], Raise IndexError))
    /\ (length cells = length fr -> (k < length fr)%nat).
Proof.
  intros Hu Hd Hne Hf Hpos.
  destruct (argmax_spec cells Hne) as (k & Hk & Hlt & Hmax & Hfirst).
  exists k. split; [exact Hlt|]. split; [exact Hmax|]. split; [exact Hfirst|].
  unfold Spec1.Tp, Spec1.units_ok. rewrite Hu, Hd, Hf, Hk.
  change (String.eqb "m2/Hz" "m2/Hz") with true. cbv iota.
  destruct (getitem_Fin fr k) as [Hin Hout].
  split; [|split].
  - intros Hkf. cbn [bind ret]. rewrite (Hin Hkf). cbn.
    assert (0 < nth k fr 0).
    { rewrite Forall_forall in Hpos. apply Hpos, nth_In, Hkf. }
    destruct (Req_dec_T (nth k fr 0) 0); [lra | reflexivity].
  - intros Hkf. cbn [bind ret]. rewrite (Hout Hkf). reflexivity.
  - intros E. lia.
Qed.

Lemma Spec1_Tp_peak_witness :
  exists k,
    (k < length [1; 3])%nat
    /\ (forall j, (j < length [1; 3])%nat -> nth j [1; 3] 0 <= nth k [1; 3] 0)
    /\ (forall j, (j < k)%nat -> nth j [1; 3] 0 < nth k [1; 3] 0)
    /\ ((k < length [1; 2])%nat ->
        Spec1.Tp Spec1_two_samples = ([], Ret (PyFloat (Fin (1 / nth k [1; 2] 0)))))
    /\ ((length [1; 2] <= k)%nat -> Spec1.Tp Spec1_two_samples = ([], Raise IndexError))
    /\ (length [1; 3] = length [1; 2] -> (k < length [1; 2])%nat).
Proof.
  apply (Spec1_Tp_peak Spec1_two_samples [1; 3] [1; 2]).
  - reflexivity.
  - reflexivity.
  - discriminate.
  - reflexivity.
  - repeat constructor; lra.
Defined.

Lemma fold_fmaximum_Fin (r : list R) (v : R) :
  fold_left fmaximum (map Fin r) (Fin v) = Fin (fold_left Rmax r v).
Proof.
  revert v. induction r as [|a r IH]; intros v; [reflexivity|].
  cbn [map fold_left]. cbn [fmaximum lift2]. apply IH.
Qed.

Lemma amax_Fin (row : list R) :
  row <> [] -> amax (map Fin row) = ret (Fin (row_max row)).
Proof.
  destruct row as [|v r]; [contradiction|]. intros _.
  cbn [map amax row_max]. rewrite fold_fmaximum_Fin. reflexivity.
Qed.

Lemma fold_Rmax_ge (r : list R) (v : R) :
  v <= fold_left Rmax r v /\ Forall (fun e => e <= fold_left Rmax r v) r.
Proof.
  revert v. induction r as [|a r IH]; intros v; cbn [fold_left].
  - split; [lra | constructor].
  - destruct (IH (Rmax v a)) as [H1 H2].
    pose proof (Rmax_l v a). pose proof (Rmax_r v a).
    split; [lra|]. constructor; [lra | exact H2].
Qed.

Lemma fold_Rmax_in (r : list R) (v : R) : In (fold_left Rmax r v) (v :: r).
Proof.
  revert v. induction r as [|a r IH]; intros v; cbn [fold_left]; [now left|].
  destruct (IH (Rmax v a)) as [H|H].
  - unfold Rmax in H at 1. destruct (Rle_dec v a).
    + right. left. exact H.
    + left. exact H.
  - right. right. exact H.
Qed.

Lemma row_max_spec (row : list R) :
  row <> [] -> In (row_max row) row /\ Forall (fun e => e <= row_max row) row.
Proof.
  destruct row as [|v r]; [contradiction|]. intros _. cbn [row_max].
  split; [apply fold_Rmax_in|].
  destruct (fold_Rmax_ge r v) as [H1 H2]. constructor; assumption.
Qed.

Lemma concat_chunks {A} (k n : nat) (l : list A) :
  length l = (k * n)%nat -> concat (chunks k n l) = l.
Proof.
  revert l. induction k as [|k IH]; intros l Hl; cbn [chunks concat].
  - destruct l; [reflexivity | discriminate].
  - rewrite IH; [apply firstn_skipn|]. rewrite length_skipn. cbn in Hl. lia.
Qed.

(** X17.  Rank 2.  [Tp] takes the maximum over the directions of every
    (t, x, f) row, then the first position [k] of the largest of these in the
    flattened array: the row [k] holds a largest energy of the whole
    container.  It returns [1/f[k]] when [k] is a valid index of [f]
    (always so for a single spectrum) and ends in an IndexError otherwise. *)
Theorem Spec2_Tp_peak (s : Spec2.self) (nt nxy nf nd : nat) (cells fr : list R) :
  substring 0 9 (Spec2.energy_units s) = "m2/Hz/deg" ->
  holds (Spec2.energy s) [nt; nxy; nf; nd] cells -> cells <> [] ->
  Spec2.f s = map Fin fr -> length fr = nf -> Forall (fun v => 0 < v) fr ->
  let rws := rowsR [nt; nxy; nf] nd cells in
  exists k,
    (k < length rws)%nat
    /\ In (row_max (nth k rws [])) (nth k rws [])
    /\ Forall (fun e => e <= row_max (nth k rws [])) cells
    /\ (forall j, (j < k)%nat -> row_max (nth j rws []) < row_max (nth k rws []))
    /\ ((k < nf)%nat -> Spec2.Tp s = ([], Ret (PyFloat (Fin (1 / nth k fr 0)))))
    /\ ((nf <= k)%nat -> Spec2.Tp s = ([], Raise IndexError))
    /\ ((nt * nxy = 1)%nat -> (k < nf)%nat).
Proof.
  intros Hu H Hne Hf Hlen Hpos rws.
  change [nt; nxy; nf; nd] with ([nt; nxy; nf] ++ [nd]) in H.
  pose proof (rows_holds _ _ _ _ H) as Hrows. fold rws in Hrows.
  pose proof H as (Hs & Hd & Hl).
  pose proof (rowsR_row_length _ _ _ Hl) as Hrl. fold rws in Hrl.
  assert (Hcount : length rws = (nt * nxy * nf)%nat).
  { unfold rws. rewrite rowsR_length. cbn. lia. }
  assert (Hsize : length cells = (nt * nxy * nf * nd)%nat).
  { rewrite Hl, size_of_snoc. cbn. lia. }
  assert (Hnd : (0 < nd)%nat).
  { destruct nd; [|lia]. rewrite Nat.mul_0_r in Hsize.
    destruct cells; [contradiction | discriminate]. }
  assert (Hrne : forall r, In r rws -> r <> []).
  { intros r Hin ->. rewrite Forall_forall in Hrl. specialize (Hrl [] Hin).
    cbn in Hrl. lia. }
  assert (Hpeaks : mapM amax (rows (Spec2.energy s)) = ret (map Fin (map row_max rws))).
  { rewrite Hrows, mapM_map, map_map. apply mapM_ret.
    intros r Hin. apply amax_Fin, Hrne, Hin. }
  assert (Hpne : map row_max rws <> []).
  { intros E. apply (f_equal (@length R)) in E. rewrite length_map, Hcount in E.
    cbn in E. rewrite E in Hsize. cbn in Hsize.
    destruct cells; [contradiction | discriminate]. }
  destruct (argmax_spec _ Hpne) as (k & Hk & Hlt & Hmax & Hfirst).
  rewrite length_map in Hlt, Hmax.
  assert (Hnth : forall j, (j < length rws)%nat ->
                           nth j (map row_max rws) 0 = row_max (nth j rws [])).
  { intros j Hj. rewrite (nth_indep _ 0 (row_max [])) by (rewrite length_map; exact Hj).
    apply map_nth. }
  exists k. split; [exact Hlt|].
  assert (Hkin : In (nth k rws []) rws) by (apply nth_In; exact Hlt).
  destruct (row_max_spec _ (Hrne _ Hkin)) as [Hin _].
  split; [exact Hin|]. split; [|split; [|split; [|split]]].
  - apply Forall_forall. intros e He.
    assert (Hc : concat rws = cells).
    { unfold rws, rowsR. apply concat_chunks. rewrite Hsize. cbn. lia. }
    rewrite <- Hc in He. apply in_concat in He. destruct He as (r & Hr & Her).
    destruct (In_nth _ _ [] Hr) as (j & Hj & Hjr).
    destruct (row_max_spec r (Hrne r Hr)) as [_ Hle].
    rewrite Forall_forall in Hle. specialize (Hle e Her).
    specialize (Hmax j Hj). rewrite !Hnth in Hmax by assumption.
    rewrite Hjr in Hmax. lra.
  - intros j Hj. specialize (Hfirst j Hj). rewrite !Hnth in Hfirst by lia.
    exact Hfirst.
  - intros Hkf. unfold Spec2.Tp, Spec2.units_ok, along_lastM. rewrite Hu, Hpeaks, Hf.
    change (String.eqb "m2/Hz/deg" "m2/Hz/deg") with true. cbv iota.
    cbn [bind ret data]. rewrite Hk. cbn [bind ret].
    rewrite (proj1 (getitem_Fin fr k)) by lia. cbn.
    assert (0 < nth k fr 0).
    { rewrite Forall_forall in Hpos. apply Hpos, nth_In. lia. }
    destruct (Req_dec_T (nth k fr 0) 0); [lra | reflexivity].
  - intros Hkf. unfold Spec2.Tp, Spec2.units_ok, along_lastM. rewrite Hu, Hpeaks, Hf.
    change (String.eqb "m2/Hz/deg" "m2/Hz/deg") with true. cbv iota.
    cbn [bind ret data]. rewrite Hk. cbn [bind ret].
    rewrite (proj2 (getitem_Fin fr k)) by lia. reflexivity.
  - intros H1. rewrite Hcount, H1 in Hlt. lia.
Qed.

Lemma Spec2_Tp_peak_witness :
  let rws := rowsR [2%nat; 1%nat; 2%nat] 2 [5; 1; 1; 1; 1; 1; 2; 1] in
  exists k,
    (k < length rws)%nat
    /\ In (row_max (nth k rws [])) (nth k rws [])
    /\ Forall (fun e => e <= row_max (nth k rws [])) [5; 1; 1; 1; 1; 1; 2; 1]
    /\ (forall j, (j < k)%nat -> row_max (nth j rws []) < row_max (nth k rws []))
    /\ ((k < 2)%nat ->
        Spec2.Tp Spec2_two_times = ([], Ret (PyFloat (Fin (1 / nth k [0.1; 0.2] 0)))))
    /\ ((2 <= k)%nat -> Spec2.Tp Spec2_two_times = ([], Raise IndexError))
    /\ ((2 * 1 = 1)%nat -> (k < 2)%nat).
Proof.
  apply (Spec2_Tp_peak Spec2_two_times 2 1 2 2 [5; 1; 1; 1; 1; 1; 2; 1] [0.1; 0.2]).
  - reflexivity.
  - repeat split.
  - discriminate.
  - reflexivity.
  - reflexivity.
  - repeat constructor; lra.
Defined.

(** ** When the reductions and [from_Spec] return *)

Lemma mapM_silent {A B} (k : A -> Py B) (l : list A) :
  (forall a, fst (k a) = []) -> fst (mapM k l) = [].
Proof.
  intros Hk. induction l as [|a l IH]; [reflexivity|].
  cbn [mapM]. unfold bind at 1. specialize (Hk a).
  destruct (k a) as [o [b|e]]; cbn [fst] in Hk; subst o; [|reflexivity].
  unfold bind at 1. destruct (mapM k l) as [o' [bs|e]]; cbn [fst] in IH; subst o';
    reflexivity.
Qed.

Lemma interp_silent (x : bound) (xp fp : list float) : fst (interp x xp fp) = [].
Proof.
  unfold interp. destruct xp as [|x0 xp']; [reflexivity|].
  destruct (negb _); [reflexivity|].
  destruct (blt_float x x0); [reflexivity|].
  destruct (bgt_float x _); [reflexivity|].
  destruct x; reflexivity.
Qed.

Lemma band_m0_silent (spec : ndarray) (f : list float) (fmin fmax : bound) :
  fst (band_m0 spec f fmin fmax) = [].
Proof.
  unfold band_m0. unfold bind at 1.
  match goal with |- context [mapM ?k ?l] =>
    pose proof (mapM_silent k l) as H; destruct (mapM k l) as [o [c|e]] end;
    cbn [fst] in H |- *; (rewrite H; [reflexivity|]);
    intros row; unfold bind;
    pose proof (interp_silent fmax f row) as H1;
    pose proof (interp_silent fmin f row) as H2;
    destruct (interp fmax f row) as [o1 [v1|e1]]; cbn [fst] in H1; subst o1;
    try reflexivity;
    destruct (interp fmin f row) as [o2 [v2|e2]]; cbn [fst] in H2; subst o2;
    reflexivity.
Qed.

Lemma Hm0_body_returns (spec : ndarray) (f : list float) (fmin fmax : bound)
    (out : list string) (v : pyobj) :
  Hm0_body spec f fmin fmax = (out, Ret v) -> out = [] /\ exists a, v = PyArr a.
Proof.
  unfold Hm0_body. destruct (is_full_band fmin fmax).
  - cbn. intros [= <- <-]. eauto.
  - pose proof (band_m0_silent spec f fmin fmax) as Hs.
    destruct (band_m0 spec f fmin fmax) as [o [a|e]]; cbn [fst] in Hs; subst o.
    + cbn. intros [= <- <-]. eauto.
    + cbn. discriminate.
Qed.

Lemma Spec2_Hm0_returns (s : Spec2.self) (fmin fmax : bound) (out : list string)
    (v : pyobj) :
  Spec2.Hm0 s fmin fmax = (out, Ret v) ->
  Spec2.units_ok s = true /\ out = [] /\ exists a, v = PyArr a.
Proof.
  intros H. destruct (Spec2.units_ok s) eqn:Hu.
  - split; [reflexivity|]. apply (Hm0_body_returns (Spec2.spec1 s) (Spec2.f s) fmin fmax).
    unfold Spec2.Hm0 in H. rewrite Hu in H. exact H.
  - unfold Spec2.Hm0 in H. rewrite Hu in H. cbn in H. discriminate.
Qed.

Lemma Spec1_Hm0_returns (s : Spec1.self) (fmin fmax : bound) (out : list string)
    (v : pyobj) :
  Spec1.Hm0 s fmin fmax = (out, Ret v) ->
  Spec1.energy_units s = "m2/Hz" /\ out = [] /\ exists a, v = PyArr a.
Proof.
  intros H. unfold Spec1.Hm0 in H.
  destruct (String.eqb (Spec1.energy_units s) "m2/Hz") eqn:Hu.
  - split; [apply String.eqb_eq; exact Hu|].
    apply (Hm0_body_returns (Spec1.energy s) (Spec1.f s) fmin fmax). exact H.
  - cbn in H. discriminate.
Qed.

(** X18.  [Hm0] never returns [None] and never returns after printing: when it
    returns, the units tag was accepted, nothing was printed and the result
    is an array; with any other tag it does not return at all. *)
Theorem Hm0_returns_only_arrays :
  (forall (s : Spec1.self) (fmin fmax : bound) (out : list string) (v : pyobj),
     Spec1.Hm0 s fmin fmax = (out, Ret v) ->
     Spec1.energy_units s = "m2/Hz" /\ out = [] /\ exists a, v = PyArr a)
  /\ (forall (s : Spec2.self) (fmin fmax : bound) (out : list string) (v : pyobj),
        Spec2.Hm0 s fmin fmax = (out, Ret v) ->
        substring 0 9 (Spec2.energy_units s) = "m2/Hz/deg" /\ out = []
        /\ exists a, v = PyArr a).
Proof.
  split.
  - exact Spec1_Hm0_returns.
  - intros s fmin fmax out v H.
    destruct (Spec2_Hm0_returns s fmin fmax out v H) as (Hu & Ho & Ha).
    split; [|auto]. apply String.eqb_eq. exact Hu.
Qed.

Lemma Hm0_returns_only_arrays_witness :
  exists v,
    Spec1.Hm0 Spec1_two_samples (Freq 0) PlusInf = ([], Ret v)
    /\ (Spec1.energy_units Spec1_two_samples = "m2/Hz" /\ @nil string = []
        /\ exists a, v = PyArr a).
Proof.
  assert (Hax : frequency_axis [1; 2]).
  { split; [repeat constructor; lra | simpl; lra]. }
  pose proof (Hm0_body_value (Spec1.energy Spec1_two_samples) 1 1 2 [1; 3] [1; 2]
                (conj eq_refl (conj eq_refl eq_refl)) eq_refl ltac:(discriminate) Hax
                (Freq 0) PlusInf) as H.
  change (Hm0_body (Spec1.energy Spec1_two_samples) (map Fin [1; 2]) (Freq 0) PlusInf)
    with (Hm0_body (Spec1.energy Spec1_two_samples) (Spec1.f Spec1_two_samples)
            (Freq 0) PlusInf) in H.
  rewrite <- (Spec1_Hm0_body Spec1_two_samples (Freq 0) PlusInf eq_refl) in H.
  eexists. split; [exact H|].
  exact (proj1 Hm0_returns_only_arrays Spec1_two_samples (Freq 0) PlusInf [] _ H).
Defined.

Lemma bind_ret_inv {A B} (m : Py A) (k : A -> Py B) (out : list string) (b : B) :
  bind m k = (out, Ret b) ->
  exists o1 a o2, m = (o1, Ret a) /\ k a = (o2, Ret b) /\ out = o1 ++ o2.
Proof.
  unfold bind. destruct m as [o1 [a|e]]; [|discriminate].
  destruct (k a) as [o2 r] eqn:Hk. intros [= <- ->]. eauto 6.
Qed.

Lemma amax_silent (row : list float) : fst (amax row) = [].
Proof. destruct row; reflexivity. Qed.

Lemma argmax_silent (l : list float) : fst (argmax l) = [].
Proof. destruct l; reflexivity. Qed.

Lemma getitem_silent (a : list float) (i : nat) : fst (getitem a i) = [].
Proof. unfold getitem. destruct (nth_error a i); reflexivity. Qed.

Lemma col_max_silent (block : list (list float)) : fst (col_max block) = [].
Proof. destruct block; reflexivity. Qed.

Lemma peak_lookup_returns (peaks : Py ndarray) (axis : list float)
    (g : float -> float) (out : list string) (v : pyobj) :
  fst peaks = [] ->
  (p <- peaks ;; i <- argmax (data p) ;; x <- getitem axis i ;;
   ret (PyFloat (g x)))%py = (out, Ret v) ->
  out = [] /\ exists x, v = PyFloat x.
Proof.
  intros Hp H.
  apply bind_ret_inv in H. destruct H as (o1 & p & o2 & H1 & H & ->).
  rewrite H1 in Hp. cbn [fst] in Hp. subst o1.
  apply bind_ret_inv in H. destruct H as (o3 & i & o4 & H3 & H & ->).
  pose proof (argmax_silent (data p)) as Ha. rewrite H3 in Ha. cbn [fst] in Ha. subst o3.
  apply bind_ret_inv in H. destruct H as (o5 & x & o6 & H5 & H & ->).
  pose proof (getitem_silent axis i) as Hg. rewrite H5 in Hg. cbn [fst] in Hg. subst o5.
  injection H as <- <-. split; [reflexivity | eauto].
Qed.

Lemma along_lastM_amax_silent (a : ndarray) : fst (along_lastM amax a) = [].
Proof.
  unfold along_lastM, bind.
  pose proof (mapM_silent amax (rows a) amax_silent) as H.
  destruct (mapM amax (rows a)) as [o [c|e]]; cbn [fst] in H; subst o; reflexivity.
Qed.

Lemma amax_penultimate_silent (a : ndarray) : fst (amax_penultimate a) = [].
Proof.
  unfold amax_penultimate, bind.
  pose proof (mapM_silent col_max (blocks a) col_max_silent) as H.
  destruct (mapM col_max (blocks a)) as [o [c|e]]; cbn [fst] in H; subst o; reflexivity.
Qed.

(** X19.  [from_Spec] returns only for a rank-2 container whose tag is accepted;
    then nothing was printed, [Hs], [Tm01] and [Tm02] are arrays, [Tp] and
    [pdir] are single numbers (none of them [None]), the metadata and [t]
    are those of the container, and [version] and [ms] are left as they
    were. *)
Theorem from_Spec_returns (a : Spec0.self) (sp : Spec) (out : list string)
    (agg : Spec0.self) :
  Spec0.from_Spec a sp = (out, Ret agg) ->
  exists s,
    sp = Rank2 s
    /\ substring 0 9 (Spec2.energy_units s) = "m2/Hz/deg"
    /\ out = []
    /\ (exists hs tm1 tm2 tp pd,
          Spec0.Hs agg = PyArr hs /\ Spec0.Tm01 agg = PyArr tm1
          /\ Spec0.Tm02 agg = PyArr tm2
          /\ Spec0.Tp agg = PyFloat tp /\ Spec0.pdir agg = PyFloat pd)
    /\ Spec0.t agg = PyList (Spec2.t s)
    /\ (Spec0.buoy agg, Spec0.sensor agg, Spec0.source agg, Spec0.epsg agg,
        Spec0.text agg)
       = (Spec2.buoy s, Spec2.sensor s, Spec2.source s, Spec2.epsg s, Spec2.text s)
    /\ (Spec0.x agg, Spec0.y agg, Spec0.lon agg, Spec0.lat agg)
       = (Spec2.x s, Spec2.y s, Spec2.lon s, Spec2.lat s)
    /\ Spec0.version agg = Spec0.version a
    /\ Spec0.ms agg = Spec0.ms a.
Proof.
  intros H. destruct sp as [s1|s].
  - destruct (from_Spec_rank1_raises a s1) as (o & e & He). rewrite He in H.
    discriminate.
  - exists s. split; [reflexivity|].
    unfold Spec0.from_Spec in H.
    apply bind_ret_inv in H. destruct H as (o1 & hs & o1' & H1 & H & ->).
    apply bind_ret_inv in H. destruct H as (o2 & tp & o2' & H2 & H & ->).
    apply bind_ret_inv in H. destruct H as (o3 & tm1 & o3' & H3 & H & ->).
    apply bind_ret_inv in H. destruct H as (o4 & tm2 & o4' & H4 & H & ->).
    apply bind_ret_inv in H. destruct H as (o5 & pd & o5' & H5 & H & ->).
    injection H as <- <-.
    cbn [Spec0.call_Hm0 Spec0.call_Tp Spec0.call_Tm01 Spec0.call_Tm02 Spec0.call_pdir]
      in *.
    destruct (Spec2_Hm0_returns _ _ _ _ _ H1) as (Hu & -> & hsa & ->).
    unfold Spec2.Tp, Spec2.Tm01, Spec2.Tm02, Spec2.pdir in *. rewrite Hu in *.
    destruct (peak_lookup_returns _ _ (fdiv (Fin 1)) _ _
                (along_lastM_amax_silent (Spec2.energy s)) H2) as (-> & tpx & ->).
    destruct (peak_lookup_returns _ _ (fun d => d) _ _
                (amax_penultimate_silent (Spec2.energy s)) H5) as (-> & pdx & ->).
    injection H3 as <- <-. injection H4 as <- <-.
    split; [apply String.eqb_eq; exact Hu|].
    split; [reflexivity|].
    split; [do 5 eexists; cbn; repeat split|].
    cbn. repeat split.
Qed.

Lemma from_Spec_two_times_run :
  exists agg,
    Spec0.from_Spec (Spec0.init no_kwargs) (Rank2 Spec2_two_times) = ([], Ret agg).
Proof.
  unfold Spec0.from_Spec, Spec0.call_Hm0, Spec0.call_Tp, Spec0.call_Tm01,
    Spec0.call_Tm02, Spec0.call_pdir.
  unfold Spec2.Hm0, Spec2.Tp, Spec2.Tm01, Spec2.Tm02, Spec2.pdir.
  cbn. decide_reals. cbn. decide_reals.
  eexists. reflexivity.
Qed.

Lemma from_Spec_returns_witness :
  exists agg s,
    Rank2 Spec2_two_times = Rank2 s
    /\ substring 0 9 (Spec2.energy_units s) = "m2/Hz/deg"
    /\ (exists hs tm1 tm2 tp pd,
          Spec0.Hs agg = PyArr hs /\ Spec0.Tm01 agg = PyArr tm1
          /\ Spec0.Tm02 agg = PyArr tm2
          /\ Spec0.Tp agg = PyFloat tp /\ Spec0.pdir agg = PyFloat pd)
    /\ Spec0.ms agg = Spec0.ms (Spec0.init no_kwargs).
Proof.
  destruct from_Spec_two_times_run as [agg Hrun].
  destruct (from_Spec_returns (Spec0.init no_kwargs) (Rank2 Spec2_two_times) [] agg Hrun)
    as (s & Hs & Hu & _ & Hv & _ & _ & _ & _ & Hms).
  exists agg, s. auto.
Defined.

(** ** The summary text *)

(** X20.  A container the constructor returned always has a summary: it shows the
    lengths of [t], of the location axis ([max(len(x), len(lon))]), of [f]
    (and of [direction] for rank 2), and the source tag between double
    quotes. *)
Theorem repr_after_init (f direction : list float) (kw : kwargs) :
  let nt := str_nat (length (dflt [NaN] (kw_t kw))) in
  let nx := str_nat (Nat.max (length (dflt [NaN] (kw_x kw)))
                             (length (dflt [NaN] (kw_lon kw)))) in
  let nf := str_nat (length f) in
  let nd := str_nat (length direction) in
  let src := dflt EmptyString (kw_source kw) in
  (forall out s, Spec1.init f kw = (out, Ret s) ->
     Spec1.repr s
     = ([], Ret ("<Spectrum1D  shape:[nt:" ++ nt ++ ",nx:" ++ nx ++ ",nf:" ++ nf
                 ++ "]: " ++ dquote ++ src ++ dquote ++ ">")%string))
  /\ (forall out s, Spec2.init f direction kw = (out, Ret s) ->
        Spec2.repr s
        = ([], Ret ("<Spectrum2D  shape:[nt:" ++ nt ++ ",nx:" ++ nx ++ ",nf:" ++ nf
                    ++ ",nd:" ++ nd ++ "]: " ++ dquote ++ src ++ dquote
                    ++ ">")%string)).
Proof.
  intros nt nx nf nd src. split.
  - intros out s. unfold Spec1.init.
    destruct (shape_eq_dec _ _) as [E|]; [|discriminate].
    destruct (shape_eq_dec _ _); [|discriminate].
    destruct (shape_eq_dec _ _); [|discriminate].
    intros [= _ <-]. unfold Spec1.repr. cbn [Spec1.energy Spec1.source].
    rewrite E. reflexivity.
  - intros out s. unfold Spec2.init.
    destruct (shape_eq_dec _ _) as [E|]; [|discriminate].
    intros [= _ <-]. unfold Spec2.repr. cbn [Spec2.energy Spec2.source].
    rewrite E. reflexivity.
Qed.

Lemma repr_after_init_witness :
  exists s,
    Spec1.init [Fin 1; Fin 2] no_kwargs = ([], Ret s)
    /\ Spec1.repr s
       = ([], Ret ("<Spectrum1D  shape:[nt:1,nx:1,nf:2]: " ++ dquote ++ dquote ++ ">")%string).
Proof.
  eexists. split; [reflexivity|].
  exact (proj1 (repr_after_init [Fin 1; Fin 2] [] no_kwargs) [] _ eq_refl).
Defined.

(** X21.  The summary exists exactly for an energy array with one to three axes
    (rank 1) or two to four axes (rank 2); for any other array the call ends
    in an UnboundLocalError. *)
Theorem repr_defined :
  (forall s : Spec1.self,
     let n := length (shape (Spec1.energy s)) in
     ((1 <= n <= 3)%nat -> exists txt, Spec1.repr s = ([], Ret txt))
     /\ ((n = 0 \/ 4 <= n)%nat -> Spec1.repr s = ([], Raise UnboundLocalError)))
  /\ (forall s : Spec2.self,
        let n := length (shape (Spec2.energy s)) in
        ((2 <= n <= 4)%nat -> exists txt, Spec2.repr s = ([], Ret txt))
        /\ ((n <= 1 \/ 5 <= n)%nat -> Spec2.repr s = ([], Raise UnboundLocalError))).
Proof.
  split; intros s n; unfold n, Spec1.repr, Spec2.repr.
  - destruct (shape (Spec1.energy s)) as [|a [|b [|c [|d l]]]]; cbn [length];
      split; intros H; try lia; try (eexists; reflexivity); reflexivity.
  - destruct (shape (Spec2.energy s)) as [|a [|b [|c [|d [|e l]]]]]; cbn [length];
      split; intros H; try lia; try (eexists; reflexivity); reflexivity.
Qed.

Lemma repr_defined_witness :
  exists txt, Spec2.repr Spec2_two_times = ([], Ret txt).
Proof.
  apply (proj1 (proj2 repr_defined Spec2_two_times)). cbn. lia.
Defined.

(** ** Peak direction *)

Lemma map2_fmaximum_Fin (a b : list R) :
  map2 fmaximum (map Fin a) (map Fin b) = map Fin (map2 Rmax a b).
Proof.
  revert b. induction a as [|x a IH]; intros [|y b]; cbn; try reflexivity.
  now rewrite IH.
Qed.

Lemma fold_map2_fmaximum_Fin (rs : list (list R)) (acc : list R) :
  fold_left (map2 fmaximum) (map (map Fin) rs) (map Fin acc)
  = map Fin (fold_left (map2 Rmax) rs acc).
Proof.
  revert acc. induction rs as [|r rs IH]; intros acc; [reflexivity|].
  cbn [map fold_left]. rewrite map2_fmaximum_Fin. apply IH.
Qed.

Lemma col_max_Fin (block : list (list R)) :
  block <> [] -> col_max (map (map Fin) block) = ret (map Fin (col_maxR block)).
Proof.
  destruct block as [|r rs]; [contradiction|]. intros _.
  cbn [map col_max col_maxR]. rewrite fold_map2_fmaximum_Fin. reflexivity.
Qed.

Lemma nth_map2_Rmax (a b : list R) (j : nat) :
  (j < length a)%nat -> (j < length b)%nat ->
  nth j (map2 Rmax a b) 0 = Rmax (nth j a 0) (nth j b 0).
Proof.
  revert b j. induction a as [|x a IH]; intros [|y b] [|j] Ha Hb; cbn in *; try lia;
    [reflexivity|].
  apply IH; lia.
Qed.

Lemma fold_map2_Rmax_spec (n : nat) (rs : list (list R)) (acc : list R) :
  length acc = n -> Forall (fun r => length r = n) rs ->
  let res := fold_left (map2 Rmax) rs acc in
  length res = n
  /\ forall j, (j < n)%nat ->
       nth j acc 0 <= nth j res 0
       /\ (forall r, In r rs -> nth j r 0 <= nth j res 0)
       /\ (nth j res 0 = nth j acc 0 \/ exists r, In r rs /\ nth j res 0 = nth j r 0).
Proof.
  intros Hacc Hrs. revert acc Hacc.
  induction Hrs as [|r rs Hr _ IH]; intros acc Hacc; cbn [fold_left].
  - split; [exact Hacc|]. intros j Hj. split; [lra|]. split; [intros r []|]. now left.
  - assert (Hlen : length (map2 Rmax acc r) = n) by (rewrite map2_length; lia).
    destruct (IH _ Hlen) as [Hl Hs]. split; [exact Hl|].
    intros j Hj. destruct (Hs j Hj) as (H1 & H2 & H3).
    rewrite nth_map2_Rmax in H1, H3 by lia.
    pose proof (Rmax_l (nth j acc 0) (nth j r 0)).
    pose proof (Rmax_r (nth j acc 0) (nth j r 0)).
    split; [lra|]. split.
    + intros r' [<-|Hin]; [lra | apply H2, Hin].
    + destruct H3 as [H3|(r' & Hin & H3)].
      * unfold Rmax in H3. destruct (Rle_dec (nth j acc 0) (nth j r 0)).
        -- right. exists r. split; [now left | exact H3].
        -- left. exact H3.
      * right. exists r'. split; [now right | exact H3].
Qed.

Lemma col_maxR_spec (n : nat) (block : list (list R)) :
  block <> [] -> Forall (fun r => length r = n) block ->
  length (col_maxR block) = n
  /\ forall j, (j < n)%nat ->
       (forall r, In r block -> nth j r 0 <= nth j (col_maxR block) 0)
       /\ exists r, In r block /\ nth j (col_maxR block) 0 = nth j r 0.
Proof.
  destruct block as [|r0 rs]; [contradiction|]. intros _ Hall.
  inversion Hall as [|? ? Hr0 Hrs]; subst. cbn [col_maxR].
  destruct (fold_map2_Rmax_spec (length r0) rs r0 eq_refl Hrs) as [Hl Hs].
  split; [exact Hl|]. intros j Hj. destruct (Hs j Hj) as (H1 & H2 & H3). split.
  - intros r [<-|Hin]; [exact H1 | apply H2, Hin].
  - destruct H3 as [H3|(r & Hin & H3)].
    + exists r0. split; [now left | exact H3].
    + exists r. split; [now right | exact H3].
Qed.

Lemma in_concat_nth (n : nat) (ls : list (list R)) (i : nat) :
  Forall (fun r => length r = n) ls -> (i < length (concat ls))%nat ->
  exists b j, In b ls /\ (j < n)%nat /\ nth i (concat ls) 0 = nth j b 0.
Proof.
  intros Hall. revert i. induction Hall as [|r ls Hr _ IH]; intros i Hi.
  - cbn in Hi. lia.
  - cbn [concat] in *. rewrite length_app in Hi.
    destruct (Nat.lt_ge_cases i (length r)) as [Hlt|Hge].
    + exists r, i. split; [now left|]. split; [lia|]. apply app_nth1. exact Hlt.
    + destruct (IH (i - length r)%nat) as (b & j & Hb & Hj & E); [lia|].
      exists b, j. split; [now right|]. split; [exact Hj|].
      rewrite app_nth2 by lia. exact E.
Qed.

Lemma In_chunks {A} (k n : nat) (l : list A) (r : list A) (e : A) :
  length l = (k * n)%nat -> In r (chunks k n l) -> In e r -> In e l.
Proof.
  intros Hl Hr He. rewrite <- (concat_chunks k n l Hl). apply in_concat. eauto.
Qed.

Lemma In_chunks_inv {A} (k n : nat) (l : list A) (e : A) :
  length l = (k * n)%nat -> In e l -> exists r, In r (chunks k n l) /\ In e r.
Proof.
  intros Hl He. rewrite <- (concat_chunks k n l Hl) in He.
  apply in_concat in He. exact He.
Qed.

Section PeakDirection.

Variables (nt nxy nf nd : nat) (cells : list R).
Hypothesis Hsize : length cells = (nt * nxy * (nf * nd))%nat.
Hypothesis Hne : cells <> [].

Lemma dims_pos : (0 < nt * nxy /\ 0 < nf /\ 0 < nd)%nat.
Proof.
  destruct cells as [|c cs]; [contradiction|]. cbn [length] in Hsize.
  destruct (nt * nxy)%nat; [cbn in Hsize; lia|].
  destruct nf; [rewrite Nat.mul_0_l, Nat.mul_0_r in Hsize; lia|].
  destruct nd; [rewrite !Nat.mul_0_r in Hsize; lia|]. lia.
Qed.

Lemma flat_blocks :
  length cells = (size_of [nt; nxy] * (nf * nd))%nat
  /\ Forall (fun fb => length fb = (nf * nd)%nat)
            (chunks (size_of [nt; nxy]) (nf * nd) cells).
Proof.
  assert (H : length cells = (size_of [nt; nxy] * (nf * nd))%nat).
  { rewrite Hsize, size_of_pair. reflexivity. }
  split; [exact H|]. apply chunks_row_length. lia.
Qed.

Lemma blocksR_rows (b : list (list R)) :
  In b (blocksR nt nxy nf nd cells) ->
  b <> [] /\ Forall (fun r => length r = nd) b
  /\ (forall r e, In r b -> In e r -> In e cells).
Proof.
  intros Hb. unfold blocksR in Hb. apply in_map_iff in Hb.
  destruct Hb as (fb & <- & Hfb). destruct flat_blocks as [Hl Hall].
  rewrite Forall_forall in Hall. pose proof (Hall fb Hfb) as Hlen.
  destruct dims_pos as (_ & Hnf & _).
  split; [|split].
  - intros E. apply (f_equal (@length _)) in E. rewrite chunks_length in E.
    cbn in E. lia.
  - apply chunks_row_length. lia.
  - intros r e Hr He.
    apply (In_chunks _ _ cells fb e Hl Hfb).
    apply (In_chunks nf nd fb r e Hlen Hr He).
Qed.

Lemma blocksR_cover (e : R) :
  In e cells ->
  exists b r, In b (blocksR nt nxy nf nd cells) /\ In r b /\ In e r.
Proof.
  intros He. destruct flat_blocks as [Hl Hall].
  destruct (In_chunks_inv _ _ cells e Hl He) as (fb & Hfb & Hefb).
  rewrite Forall_forall in Hall.
  destruct (In_chunks_inv nf nd fb e (Hall fb Hfb) Hefb) as (r & Hr & Her).
  exists (chunks nf nd fb), r. split; [|auto].
  unfold blocksR. apply in_map. exact Hfb.
Qed.

Lemma peaks_rows :
  Forall (fun c => length c = nd) (map col_maxR (blocksR nt nxy nf nd cells)).
Proof.
  apply Forall_map, Forall_forall. intros b Hb.
  destruct (blocksR_rows b Hb) as (Hbne & Hrows & _).
  apply (col_maxR_spec nd b Hbne Hrows).
Qed.

Lemma peaks_length :
  length (concat (map col_maxR (blocksR nt nxy nf nd cells))) = (nt * nxy * nd)%nat.
Proof.
  rewrite (concat_length_rows nd _ peaks_rows). unfold blocksR.
  rewrite !length_map, chunks_length, size_of_pair. reflexivity.
Qed.

(** Every value of the column maxima is a cell, and every cell is below
    one of them. *)
Lemma peaks_attained (i : nat) :
  let P := concat (map col_maxR (blocksR nt nxy nf nd cells)) in
  (i < length P)%nat -> In (nth i P 0) cells.
Proof.
  intros P Hi.
  destruct (in_concat_nth nd _ i peaks_rows Hi) as (c & j & Hc & Hj & E).
  apply in_map_iff in Hc. destruct Hc as (b & <- & Hb).
  destruct (blocksR_rows b Hb) as (Hbne & Hrows & Hin).
  destruct (col_maxR_spec nd b Hbne Hrows) as [_ Hs].
  destruct (Hs j Hj) as [_ (r & Hr & Er)].
  unfold P. rewrite E, Er. apply (Hin r _ Hr). apply nth_In.
  rewrite Forall_forall in Hrows. rewrite (Hrows r Hr). exact Hj.
Qed.

Lemma peaks_dominate (e : R) :
  let P := concat (map col_maxR (blocksR nt nxy nf nd cells)) in
  In e cells -> exists i, (i < length P)%nat /\ e <= nth i P 0.
Proof.
  intros P He. destruct (blocksR_cover e He) as (b & r & Hb & Hr & Her).
  destruct (blocksR_rows b Hb) as (Hbne & Hrows & _).
  destruct (col_maxR_spec nd b Hbne Hrows) as [Hl Hs].
  destruct (In_nth r e 0 Her) as (j & Hj & Ej).
  rewrite Forall_forall in Hrows. rewrite (Hrows r Hr) in Hj.
  destruct (Hs j Hj) as [Hle _]. specialize (Hle r Hr). rewrite Ej in Hle.
  assert (HinP : In (nth j (col_maxR b) 0) P).
  { unfold P. apply in_concat. exists (col_maxR b). split.
    - apply in_map. exact Hb.
    - apply nth_In. rewrite Hl. exact Hj. }
  destruct (In_nth P _ 0 HinP) as (i & Hi & Ei).
  exists i. split; [exact Hi|]. rewrite Ei. exact Hle.
Qed.

End PeakDirection.

Lemma blocks_holds (a : ndarray) (nt nxy nf nd : nat) (cells : list R) :
  holds a [nt; nxy; nf; nd] cells ->
  blocks a = map (map (map Fin)) (blocksR nt nxy nf nd cells).
Proof.
  intros (Hs & Hd & _). unfold blocks, blocksR. rewrite Hs, Hd.
  cbn [last removelast]. rewrite chunks_map, !map_map.
  apply map_ext. intros fb. apply chunks_map.
Qed.

(** X22.  Rank 2.  [pdir] takes the maximum over the frequencies of every
    (t, x, direction) column, then the first position [k] of the largest of
    these in the flattened array: that value is the largest energy of the
    whole container.  It returns [direction[k]] when [k] is a valid index
    of [direction] (always so for a single spectrum) and ends in an
    IndexError otherwise. *)
Theorem Spec2_pdir_peak (s : Spec2.self) (nt nxy nf nd : nat) (cells dirs : list R) :
  substring 0 9 (Spec2.energy_units s) = "m2/Hz/deg" ->
  holds (Spec2.energy s) [nt; nxy; nf; nd] cells -> cells <> [] ->
  Spec2.direction s = map Fin dirs -> length dirs = nd ->
  let P := concat (map col_maxR (blocksR nt nxy nf nd cells)) in
  exists k,
    (k < length P)%nat
    /\ In (nth k P 0) cells
    /\ Forall (fun e => e <= nth k P 0) cells
    /\ (forall j, (j < k)%nat -> nth j P 0 < nth k P 0)
    /\ ((k < nd)%nat -> Spec2.pdir s = ([], Ret (PyFloat (Fin (nth k dirs 0)))))
    /\ ((nd <= k)%nat -> Spec2.pdir s = ([], Raise IndexError))
    /\ ((nt * nxy = 1)%nat -> (k < nd)%nat).
Proof.
  intros Hu H Hne Hdir Hlen P.
  assert (Hsize : length cells = (nt * nxy * (nf * nd))%nat).
  { destruct H as (_ & _ & Hl). rewrite Hl. cbn. lia. }
  pose proof (peaks_length nt nxy nf nd cells Hsize Hne) as HPlen. fold P in HPlen.
  destruct (dims_pos nt nxy nf nd cells Hsize Hne) as (Hk0 & Hnf & Hnd).
  assert (HPne : P <> []).
  { intros E. rewrite E in HPlen. cbn in HPlen. nia. }
  destruct (argmax_spec P HPne) as (k & Hk & Hlt & Hmax & Hfirst).
  assert (Hpeaks : amax_penultimate (Spec2.energy s)
                   = ret (mk_ndarray [nt; nxy; nd] (map Fin P))).
  { unfold amax_penultimate. rewrite (blocks_holds _ _ _ _ _ _ H), mapM_map.
    rewrite (mapM_ret _ (fun b => map Fin (col_maxR b))).
    - destruct H as (Hs & _). rewrite Hs. cbn [bind ret removelast last app].
      unfold P. rewrite concat_map, map_map. reflexivity.
    - intros b Hb. apply col_max_Fin.
      apply (blocksR_rows nt nxy nf nd cells Hsize Hne b Hb). }
  exists k. split; [exact Hlt|]. split; [|split; [|split; [|split; [|split]]]].
  - apply (peaks_attained nt nxy nf nd cells Hsize Hne k Hlt).
  - apply Forall_forall. intros e He.
    destruct (peaks_dominate nt nxy nf nd cells Hsize Hne e He) as (i & Hi & Hle).
    fold P in Hi, Hle. specialize (Hmax i Hi). lra.
  - exact Hfirst.
  - intros Hkd. unfold Spec2.pdir, Spec2.units_ok. rewrite Hu, Hpeaks, Hdir.
    change (String.eqb "m2/Hz/deg" "m2/Hz/deg") with true. cbv iota.
    cbn [bind ret data]. rewrite Hk. cbn [bind ret].
    rewrite (proj1 (getitem_Fin dirs k)) by lia. reflexivity.
  - intros Hkd. unfold Spec2.pdir, Spec2.units_ok. rewrite Hu, Hpeaks, Hdir.
    change (String.eqb "m2/Hz/deg" "m2/Hz/deg") with true. cbv iota.
    cbn [bind ret data]. rewrite Hk. cbn [bind ret].
    rewrite (proj2 (getitem_Fin dirs k)) by lia. reflexivity.
  - intros H1. rewrite HPlen, H1 in Hlt. lia.
Qed.

Lemma Spec2_pdir_peak_witness :
  let P := concat (map col_maxR (blocksR 2 1 2 2 [5; 1; 1; 1; 1; 1; 2; 1])) in
  exists k,
    (k < length P)%nat
    /\ In (nth k P 0) [5; 1; 1; 1; 1; 1; 2; 1]
    /\ Forall (fun e => e <= nth k P 0) [5; 1; 1; 1; 1; 1; 2; 1]
    /\ (forall j, (j < k)%nat -> nth j P 0 < nth k P 0)
    /\ ((k < 2)%nat ->
        Spec2.pdir Spec2_two_times = ([], Ret (PyFloat (Fin (nth k [0; 90] 0)))))
    /\ ((2 <= k)%nat -> Spec2.pdir Spec2_two_times = ([], Raise IndexError))
    /\ ((2 * 1 = 1)%nat -> (k < 2)%nat).
Proof.
  apply (Spec2_pdir_peak Spec2_two_times 2 1 2 2 [5; 1; 1; 1; 1; 1; 2; 1] [0; 90]).
  - reflexivity.
  - repeat split.
  - discriminate.
  - reflexivity.
  - reflexivity.
Defined.

(** * Properties in double precision *)

(** ** The trapezoidal rule *)

Lemma map2_tl_length {A B} (g : A -> A -> B) (l : list A) :
  length (map2 g (tl l) l) = (length l - 1)%nat.
Proof.
  destruct l as [|a l]; [reflexivity|]. cbn [tl length].
  replace (S (length l) - 1)%nat with (length l) by lia.
  revert a. induction l as [|b l IH]; intros a; [reflexivity|].
  cbn [map2 length]. f_equal. apply IH.
Qed.

Lemma IEEE_trapz_same_length (y x : list IEEE.F) :
  length y = length x ->
  IEEE.trapz y x
  = ret (IEEE.np_sum (map (fun t => IEEE.div t IEEE.two)
                          (map2 IEEE.mul (IEEE.diff x) (IEEE.pair_sums y)))).
Proof.
  intros H. unfold IEEE.trapz, IEEE.areas, IEEE.broadcast2, IEEE.diff, IEEE.pair_sums.
  rewrite !map2_tl_length, H, Nat.eqb_refl. reflexivity.
Qed.

(** ** The mean periods of a spike *)


(** ** Frequency ranges *)


(** ** Sign symmetry of the arithmetic *)




Lemma IEEE_opp_involutive (v : IEEE.F) : IEEE.opp (IEEE.opp v) = v.
Proof. destruct v; cbn; rewrite ?negb_involutive; reflexivity. Qed.

Lemma negz_sym (u v : IEEE.F) : negz u v -> negz v u.
Proof.
  intros [-> | [H1 H2]]; [left | right; auto].
  symmetry. apply IEEE_opp_involutive.
Qed.















(** ** Reversing the direction axis, in doubles *)










(** ** The spreading kernel in doubles *)

Section SpreadingDoubles.

Variable np_cos : IEEE.F -> IEEE.F.
Variable np_power : IEEE.F -> IEEE.F -> IEEE.F.
Variable float_pow : IEEE.F -> IEEE.F -> outcome IEEE.F.
Variable tgamma : IEEE.F -> IEEE.F.
Variable str_float : IEEE.F -> string.

Lemma A1_value (ms p g1 q g2 : IEEE.F) :
  float_pow IEEE.two ms = Ret p ->
  IEEE.math_gamma tgamma (IEEE.add (IEEE.div ms IEEE.two) IEEE.one) = ret g1 ->
  float_pow g1 IEEE.two = Ret q ->
  IEEE.math_gamma tgamma (IEEE.add ms IEEE.one) = ret g2 ->
  IEEE.is_zero (IEEE.mul IEEE.np_pi g2) = false ->
  IEEE.A1 float_pow tgamma ms = ret (IEEE.div (IEEE.mul p q) (IEEE.mul IEEE.np_pi g2)).
Proof.
  intros Hp Hg1 Hq Hg2 Hz. unfold IEEE.A1, IEEE.float_div.
  rewrite Hp. cbn [bind]. rewrite Hg1. cbn [bind ret]. rewrite Hq. cbn [bind].
  rewrite Hg2. cbn [bind ret]. rewrite Hz. reflexivity.
Qed.

(** [math.gamma] refuses every argument above 200, so [A1] raises for
    [ms/2+1 > 200] whatever the library functions return. *)
Lemma A1_overflow (ms : IEEE.F) (s : bool) (m : positive) (e : Z) :
  IEEE.add (IEEE.div ms IEEE.two) IEEE.one = S754_finite s m e ->
  IEEE.ltb IEEE.c200 (S754_finite s m e) = true ->
  exists err, IEEE.A1 float_pow tgamma ms = ([], Raise err).
Proof.
  intros Hx Hlt. unfold IEEE.A1.
  destruct (float_pow IEEE.two ms) as [p|err]; [|eexists; reflexivity].
  cbn [bind]. rewrite Hx. unfold IEEE.math_gamma. rewrite Hlt.
  destruct s.
  - exfalso. revert Hlt. unfold IEEE.ltb, SFltb, IEEE.c200. cbn. discriminate.
  - cbn. eexists; reflexivity.
Qed.

Lemma check_integral_out (cdir dirs : list IEEE.F) (ms : IEEE.F) :
  length cdir = length dirs ->
  exists out,
    IEEE.check_integral str_float cdir dirs ms = (out, Ret tt)
    /\ (out = [] \/ exists intz,
          out = [String.concat " " ["integral not 1 for ms="; str_float ms; ":";
                                    str_float intz]]).
Proof.
  intros H. unfold IEEE.check_integral. rewrite (IEEE_trapz_same_length _ _ H).
  cbn [bind ret].
  match goal with |- context [if ?c then _ else _] => destruct c end.
  - exists []. split; [reflexivity | left; reflexivity].
  - eexists. split; [reflexivity | right; eexists; reflexivity].
Qed.

Lemma to_rad_zero (v : IEEE.F) :
  IEEE.is_finite v = true -> IEEE.is_zero (IEEE.to_rad (IEEE.mul v IEEE.zero)) = true.
Proof. destruct v as [s|s| |s m e]; try discriminate; intros _; reflexivity. Qed.

End SpreadingDoubles.

(** C3, as amended.  In doubles, for a unit tag that starts with "deg":
    whenever the library calls of [A1] return ([2.**ms],
    [math.gamma(ms/2+1)], its square, [math.gamma(ms+1)]) and
    [np.pi*gamma(ms+1)] is not zero, the kernel returns for every sample
    direction [d] the weight [w*np.pi/180], where
    [w = A1 * maximum(c**ms, 1e-10)] if the computed cosine
    [c = np.cos(d*np.pi/180 - pdir*np.pi/180)] is positive and
    [w = (d*np.pi/180)*0] otherwise, with
    [A1 = 2.**ms * gamma(ms/2+1)**2 / (np.pi * gamma(ms+1))]; it prints
    nothing or the one line of the integral check; and the weight of a
    direction whose cosine is not positive is a zero as long as
    [d*np.pi/180] is finite. *)
Theorem directional_spreading_deg (np_cos : IEEE.F -> IEEE.F)
    (np_power : IEEE.F -> IEEE.F -> IEEE.F) (float_pow : IEEE.F -> IEEE.F -> outcome IEEE.F)
    (tgamma : IEEE.F -> IEEE.F) (str_float : IEEE.F -> string)
    (dirs : list IEEE.F) (pdir ms : IEEE.F) (units : string) (p g1 q g2 : IEEE.F) :
  substring 0 3 units = "deg" ->
  float_pow IEEE.two ms = Ret p ->
  IEEE.math_gamma tgamma (IEEE.add (IEEE.div ms IEEE.two) IEEE.one) = ret g1 ->
  float_pow g1 IEEE.two = Ret q ->
  IEEE.math_gamma tgamma (IEEE.add ms IEEE.one) = ret g2 ->
  IEEE.is_zero (IEEE.mul IEEE.np_pi g2) = false ->
  let a1 := IEEE.div (IEEE.mul p q) (IEEE.mul IEEE.np_pi g2) in
  let c := fun d => np_cos (IEEE.sub (IEEE.to_rad d) (IEEE.to_rad pdir)) in
  let weight := fun d =>
    IEEE.to_rad (if IEEE.ltb IEEE.zero (c d)
                 then IEEE.mul a1 (IEEE.maximum (np_power (c d) ms) IEEE.c1e_10)
                 else IEEE.mul (IEEE.to_rad d) IEEE.zero) in
  exists out,
    IEEE.directional_spreading np_cos np_power float_pow tgamma str_float
      dirs pdir ms units = (out, Ret (map weight dirs))
    /\ (out = [] \/ exists intz,
          out = [String.concat " " ["integral not 1 for ms="; str_float ms; ":";
                                    str_float intz]])
    /\ (forall d, IEEE.is_finite (IEEE.to_rad d) = true ->
                  IEEE.ltb IEEE.zero (c d) = false ->
                  IEEE.is_zero (weight d) = true).
Proof.
  intros Hu Hp Hg1 Hq Hg2 Hz a1 c weight.
  unfold IEEE.directional_spreading. rewrite Hu.
  change (String.eqb "deg" "deg") with true. cbv iota.
  rewrite (A1_value float_pow tgamma ms p g1 q g2 Hp Hg1 Hq Hg2 Hz).
  fold a1. cbn [bind ret app].
  destruct (check_integral_out str_float
              (map IEEE.to_rad (map (IEEE.cdir_at np_cos np_power a1 (IEEE.to_rad pdir) ms)
                                    (map IEEE.to_rad dirs)))
              (map IEEE.to_rad dirs) ms) as (out & Hc & Hout).
  { rewrite !length_map. reflexivity. }
  rewrite Hc. cbn [bind ret]. exists out. split; [|split].
  - rewrite app_nil_r. f_equal. f_equal. rewrite !map_map. reflexivity.
  - exact Hout.
  - intros d Hfin Hneg. unfold weight. rewrite Hneg. apply to_rad_zero. exact Hfin.
Qed.

Lemma directional_spreading_deg_witness :
  exists out,
    IEEE.directional_spreading cos_0_pi pow_2 float_pow_2 gamma_2_3 str_any
      (lits [0; 180]%float) IEEE.zero IEEE.two "deg"
    = (out, Ret (lits [0.011111111111111112; 0]%float))
    /\ out = [].
Proof.
  destruct (directional_spreading_deg cos_0_pi pow_2 float_pow_2 gamma_2_3 str_any
              (lits [0; 180]%float) IEEE.zero IEEE.two "deg"
              (IEEE.lit 4) IEEE.one IEEE.one IEEE.two
              eq_refl eq_refl eq_refl eq_refl eq_refl eq_refl) as (out & H & _).
  exists out. split.
  - rewrite H. vm_compute. reflexivity.
  - revert H. vm_compute. intros H. injection H as H. symmetry. exact H.
Defined.

(** C3, counterexample.  [directional_spreading([0., 90.], 0., 400.)]
    returns no weights: [math.gamma(201.)] raises OverflowError. *)
Lemma directional_spreading_gamma_overflow :
  IEEE.directional_spreading cos_0_pi pow_2 float_pow_400 gamma_2_3 str_any
    (lits [0; 90]%float) IEEE.zero (IEEE.lit 400) "deg"
  = ([], Raise OverflowError).
Proof. vm_compute. reflexivity. Qed.

(** ** The JONSWAP generator in doubles *)


Section JonswapDoubles.

Variable np_exp : IEEE.F -> IEEE.F.
Variable np_power : IEEE.F -> IEEE.F -> IEEE.F.
Variable float_pow : IEEE.F -> IEEE.F -> outcome IEEE.F.

Lemma alpha_unbound (method : string) (gamma : IEEE.F) :
  method <> "Yamaguchi" -> method <> "Goda" ->
  IEEE.alpha float_pow method gamma = raise UnboundLocalError.
Proof.
  intros H1 H2. unfold IEEE.alpha.
  destruct (String.eqb_spec method "Yamaguchi") as [E|_]; [contradiction|].
  destruct (String.eqb_spec method "Goda") as [E|_]; [contradiction|].
  reflexivity.
Qed.

End JonswapDoubles.

(** X6.  A [method] other than "Yamaguchi" and "Goda" leaves [alpha]
    unbound: [jonswap] raises UnboundLocalError before anything else is
    evaluated, whatever the other arguments. *)
Theorem jonswap_unknown_method (np_exp : IEEE.F -> IEEE.F)
    (np_power : IEEE.F -> IEEE.F -> IEEE.F) (float_pow : IEEE.F -> IEEE.F -> outcome IEEE.F)
    (f : list IEEE.F) (Hm0 Tp g gamma sa sb : IEEE.F) (method : string)
    (normalize : bool) :
  method <> "Yamaguchi" -> method <> "Goda" ->
  IEEE.jonswap np_exp np_power float_pow f Hm0 Tp g gamma method normalize sa sb
  = ([], Raise UnboundLocalError).
Proof.
  intros H1 H2. unfold IEEE.jonswap.
  rewrite (alpha_unbound float_pow method gamma H1 H2). reflexivity.
Qed.

Lemma jonswap_unknown_method_witness :
  IEEE.jonswap np_exp_jonswap np_power_jonswap float_pow_jonswap
    (lits [1; 2]%float) IEEE.one IEEE.one (IEEE.lit 9.81) (IEEE.lit 3.3)
    "TMA" true (IEEE.lit 0.07) (IEEE.lit 0.09)
  = ([], Raise UnboundLocalError).
Proof.
  apply (jonswap_unknown_method np_exp_jonswap np_power_jonswap float_pow_jonswap
           (lits [1; 2]%float) IEEE.one IEEE.one (IEEE.lit 9.81) (IEEE.lit 3.3)
           (IEEE.lit 0.07) (IEEE.lit 0.09) "TMA" true); discriminate.
Defined.

(** ** The kernel on radians, in doubles *)

(** X11.  In doubles, for a unit tag that starts with "rad": whenever the
    library calls of [A1] return and [np.pi*gamma(ms+1)] is not zero, the
    kernel takes the directions as they are ([dirs + 0.]), leaves [pdir]
    unconverted and the weights unscaled, and prints nothing or the one
    line of the integral check. *)
Theorem directional_spreading_rad (np_cos : IEEE.F -> IEEE.F)
    (np_power : IEEE.F -> IEEE.F -> IEEE.F) (float_pow : IEEE.F -> IEEE.F -> outcome IEEE.F)
    (tgamma : IEEE.F -> IEEE.F) (str_float : IEEE.F -> string)
    (dirs : list IEEE.F) (pdir ms : IEEE.F) (units : string) (p g1 q g2 : IEEE.F) :
  substring 0 3 units = "rad" ->
  float_pow IEEE.two ms = Ret p ->
  IEEE.math_gamma tgamma (IEEE.add (IEEE.div ms IEEE.two) IEEE.one) = ret g1 ->
  float_pow g1 IEEE.two = Ret q ->
  IEEE.math_gamma tgamma (IEEE.add ms IEEE.one) = ret g2 ->
  IEEE.is_zero (IEEE.mul IEEE.np_pi g2) = false ->
  let a1 := IEEE.div (IEEE.mul p q) (IEEE.mul IEEE.np_pi g2) in
  let weight := fun d =>
    let r := IEEE.add d IEEE.zero in
    let c := np_cos (IEEE.sub r pdir) in
    if IEEE.ltb IEEE.zero c
    then IEEE.mul a1 (IEEE.maximum (np_power c ms) IEEE.c1e_10)
    else IEEE.mul r IEEE.zero in
  exists out,
    IEEE.directional_spreading np_cos np_power float_pow tgamma str_float
      dirs pdir ms units = (out, Ret (map weight dirs))
    /\ (out = [] \/ exists intz,
          out = [String.concat " " ["integral not 1 for ms="; str_float ms; ":";
                                    str_float intz]]).
Proof.
  intros Hu Hp Hg1 Hq Hg2 Hz a1 weight.
  unfold IEEE.directional_spreading. rewrite Hu.
  change (String.eqb "rad" "deg") with false.
  change (String.eqb "rad" "rad") with true. cbv iota.
  rewrite (A1_value float_pow tgamma ms p g1 q g2 Hp Hg1 Hq Hg2 Hz).
  fold a1. cbn [bind ret app].
  destruct (check_integral_out str_float
              (map (IEEE.cdir_at np_cos np_power a1 pdir ms)
                   (map (fun d => IEEE.add d IEEE.zero) dirs))
              (map (fun d => IEEE.add d IEEE.zero) dirs) ms) as (out & Hc & Hout).
  { rewrite !length_map. reflexivity. }
  rewrite Hc. cbn [bind ret]. exists out. split.
  - rewrite app_nil_r. f_equal. f_equal. rewrite !map_map. reflexivity.
  - exact Hout.
Qed.

Lemma directional_spreading_rad_witness :
  exists out,
    IEEE.directional_spreading cos_0_pi pow_2 float_pow_2 gamma_2_3 str_any
      (lits [0; 3.141592653589793]%float) IEEE.zero IEEE.two "rad"
    = (out, Ret (lits [0.6366197723675814; 0]%float)).
Proof.
  destruct (directional_spreading_rad cos_0_pi pow_2 float_pow_2 gamma_2_3 str_any
              (lits [0; 3.141592653589793]%float) IEEE.zero IEEE.two "rad"
              (IEEE.lit 4) IEEE.one IEEE.one IEEE.two
              eq_refl eq_refl eq_refl eq_refl eq_refl eq_refl) as (out & H & _).
  exists out. rewrite H. vm_compute. reflexivity.
Defined.

(** ** The second moment of a list *)

(** X23.  With an accepted units tag and a frequency axis that is a Python
    list, [Tm02] of a rank-2 container raises TypeError ([self.f**2])
    unless the moment [m0] before it already raised, whereas [Tm01] does
    not look at the type of [f]; so [Spec2().Tm02()] raises TypeError
    while [Spec2().Tm01()] returns (one nan). *)
Theorem Tm02_list_axis (s : IEEE.Spec2.self) :
  IEEE.Spec2.units_ok s = true -> IEEE.Spec2.f_list s = true ->
  (exists out e, IEEE.Spec2.Tm02 s = (out, Raise e))
  /\ (forall out m0,
        IEEE.per_cell (fun c => (sp <- IEEE.Spec2.spec1 (IEEE.Spec2.direction s) c ;;
                                 IEEE.trapz sp (IEEE.Spec2.f s))%py)
                      (IEEE.Spec2.energy s) = (out, Ret m0) ->
        IEEE.Spec2.Tm02 s = (out, Raise TypeError)).
Proof.
  intros Hu Hl. unfold IEEE.Spec2.Tm02. rewrite Hu, Hl. split.
  - destruct (IEEE.per_cell _ (IEEE.Spec2.energy s)) as [out [m0|e]];
      cbn [bind raise]; do 2 eexists; reflexivity.
  - intros out m0 ->. cbn [bind raise]. rewrite app_nil_r. reflexivity.
Qed.

Lemma Tm02_list_axis_witness :
  IEEE.Spec2.Tm02 Spec2_blank = ([], Raise TypeError)
  /\ IEEE.Spec2.Tm01 Spec2_blank = ([], Ret (Some [[IEEE.nan]])).
Proof.
  split.
  - apply (proj2 (Tm02_list_axis Spec2_blank eq_refl eq_refl) [] [[IEEE.zero]]).
    vm_compute. reflexivity.
  - vm_compute. reflexivity.
Defined.
